(** * Message.parse and the message events of src/message.ts

    A shallow embedding of the inline-markup scanner [Message.parse], of
    the attachment merge that follows it and of the [guild] / [channel]
    accessors of [GuildMessageEvent], with the properties of the
    repository's specification stated over it. *)

From Stdlib Require Import ZArith NArith List String Ascii Bool Lia.
From stdpp Require Import base option list gmap.

Local Open Scope Z_scope.

(** ** JavaScript strings

    A JavaScript string is a sequence of UTF-16 code units; the regular
    expressions of the source carry no [u] flag, so they too work on
    code units. *)

Abbreviation jsstring := (list N).

(** Code units of an ASCII literal. *)
Fixpoint js (s : string) : jsstring :=
  match s with
  | EmptyString => []
  | String a r => N_of_ascii a :: js r
  end.

Arguments js : simpl never.

Definition str_eqb (a b : jsstring) : bool := bool_decide (a = b).

(** [s.startsWith(p)] *)
Fixpoint startsWith (s p : jsstring) {struct p} : bool :=
  match p with
  | [] => true
  | c :: p' =>
      match s with
      | [] => false
      | d :: s' => N.eqb c d && startsWith s' p'
      end
  end.

(** [s.indexOf(p)]: the first position at which [p] occurs, [-1] if none. *)
Fixpoint indexOf_from (i : Z) (s p : jsstring) : Z :=
  if startsWith s p then i
  else match s with
       | [] => -1
       | _ :: s' => indexOf_from (i + 1) s' p
       end.

Definition indexOf (s p : jsstring) : Z := indexOf_from 0 s p.

(** [s.slice(start, end)], [end] being optional; a negative index counts
    from the end of the string. *)
Definition clamp_index (len i : Z) : Z :=
  if i <? 0 then Z.max (len + i) 0 else Z.min i len.

Definition slice (s : jsstring) (start : Z) (end_ : option Z) : jsstring :=
  let len := Z.of_nat (length s) in
  let from := clamp_index len start in
  let to := match end_ with
            | None => len
            | Some e => clamp_index len e
            end in
  take (Z.to_nat (Z.max (to - from) 0)) (drop (Z.to_nat from) s).

(** [s.split(sep)] for a separator of one code unit; the result is never
    empty (the empty string splits into one empty string). *)
Fixpoint split (sep : N) (s : jsstring) : list jsstring :=
  match s with
  | [] => [[]]
  | c :: s' =>
      if N.eqb c sep then [] :: split sep s'
      else match split sep s' with
           | [] => [[c]]
           | w :: ws => (c :: w) :: ws
           end
  end.

(** [parts.join(sep)] on an array of strings. *)
Fixpoint join (sep : jsstring) (parts : list jsstring) : jsstring :=
  match parts with
  | [] => []
  | [w] => w
  | w :: ws => w ++ sep ++ join sep ws
  end.

(** [s.replace(p, r)] with a string pattern: only the first occurrence is
    replaced (the replacement used by the source has no [$] pattern). *)
Fixpoint replace (s p r : jsstring) : jsstring :=
  if startsWith s p then r ++ drop (length p) s
  else match s with
       | [] => []
       | c :: s' => c :: replace s' p r
       end.

(** ** The scanner's regular expression

    The regular expression of line 183 is an alternation of six patterns:
    a span between two double quotes, two single quotes, two backticks,
    the curly double quotes U+201C and U+201D, the curly single quotes
    U+2018 and U+2019, and a bracket tag from [<] to [>]. Each is an
    opening code unit, a lazy run of code units other than the closing one,
    and the closing code unit; the run of the bracket tag has at least one
    element ([+?]), the others may be empty ([*?]). *)

Record alternative := Alt { alt_open : N; alt_close : N; alt_min : nat }.

Definition scanner_regex : list alternative :=
  [ Alt 34 34 0        (* double quotes *)
  ; Alt 39 39 0        (* single quotes *)
  ; Alt 96 96 0        (* backticks *)
  ; Alt 8220 8221 0    (* U+201C .. U+201D *)
  ; Alt 8216 8217 0    (* U+2018 .. U+2019 *)
  ; Alt 60 62 1        (* < .. >, at least one code unit inside *)
  ].

(** The code units before the first [close], when [close] occurs. *)
Fixpoint run_until (close : N) (s : jsstring) : option jsstring :=
  match s with
  | [] => None
  | c :: s' =>
      if N.eqb c close then Some []
      else match run_until close s' with
           | Some w => Some (c :: w)
           | None => None
           end
  end.

(** One alternative tried at the start of [s]. The run cannot step over a
    closing code unit, so the lazy quantifier has one candidate only. *)
Definition match_alt (a : alternative) (s : jsstring) : option jsstring :=
  match s with
  | [] => None
  | c :: s' =>
      if N.eqb c (alt_open a) then
        match run_until (alt_close a) s' with
        | Some w =>
            if (alt_min a <=? length w)%nat
            then Some (c :: w ++ [alt_close a]) else None
        | None => None
        end
      else None
  end.

(** The alternatives in order at one position. *)
Fixpoint match_here (alts : list alternative) (s : jsstring) : option jsstring :=
  match alts with
  | [] => None
  | a :: alts' =>
      match match_alt a s with
      | Some m => Some m
      | None => match_here alts' s
      end
  end.

(** [s.match(regex)]: the match at the leftmost position that has one. *)
Fixpoint first_match (s : jsstring) : option jsstring :=
  match match_here scanner_regex s with
  | Some m => Some m
  | None => match s with
            | [] => None
            | _ :: s' => first_match s'
            end
  end.

(** [/^[a-z]+:[0-9]+$/.test(s)] *)
Definition is_lower (c : N) : bool := (97 <=? c)%N && (c <=? 122)%N.
Definition is_digit (c : N) : bool := (48 <=? c)%N && (c <=? 57)%N.

Fixpoint all_digits (s : jsstring) : bool :=
  match s with
  | [] => true
  | c :: s' => is_digit c && all_digits s'
  end.

Fixpoint shorthand_rest (s : jsstring) : bool :=
  match s with
  | [] => false
  | c :: s' =>
      if is_lower c then shorthand_rest s'
      else N.eqb c 58 && negb (bool_decide (s' = [])) && all_digits s'
  end.

Definition shorthand_test (s : jsstring) : bool :=
  match s with
  | c :: s' => is_lower c && shorthand_rest s'
  | [] => false
  end.

(** Lower-casing of the code units [A]..[Z]; it is what
    [String.prototype.toLowerCase] does on a string of ASCII code units. *)
Definition toLowerCase_ascii (s : jsstring) : jsstring :=
  map (fun c => if (65 <=? c)%N && (c <=? 90)%N then (c + 32)%N else c) s.

(** Modelled from the spec: [trimQuote] of [@/utils], whose source is not
    part of the two files: the value has a single layer of surrounding
    matching quote characters stripped if present (double, single,
    backtick, or full-width curly), only if both open and close match. *)
Definition quote_close (c : N) : option N :=
  if N.eqb c 34 then Some 34%N
  else if N.eqb c 39 then Some 39%N
  else if N.eqb c 96 then Some 96%N
  else if N.eqb c 8220 then Some 8221%N
  else if N.eqb c 8216 then Some 8217%N
  else None.

Definition trimQuote_spec (s : jsstring) : jsstring :=
  match s with
  | c :: rest =>
      match quote_close c, last rest with
      | Some d, Some e => if N.eqb d e then removelast rest else s
      | _, _ => s
      end
  | [] => s
  end.

(** ** Outcomes *)

Inductive js_error := TypeError.

(** What a call does: it returns, it throws, or the model ran out of
    fuel before the loop finished ([parse_enough_fuel]: it does not). *)
Inductive outcome (A : Type) :=
| Returned (a : A)
| Thrown (e : js_error)
| OutOfFuel.
Arguments Returned {A} a.
Arguments Thrown {A} e.
Arguments OutOfFuel {A}.

#[global] Instance outcome_ret : MRet outcome := fun A a => Returned a.

#[global] Instance outcome_bind : MBind outcome := fun A B f x =>
  match x with
  | Returned a => f a
  | Thrown e => Thrown e
  | OutOfFuel => OutOfFuel
  end.

(** ** Values, objects and message elements

    The values a payload holds. Numbers, arrays and nested objects are
    never inspected by the code below: they are only copied, or converted to
    a string inside a template literal. Their type [other] and their string
    conversion [show] are parameters. *)

Inductive value (other : Type) :=
| VUndefined
| VNull
| VBool (b : bool)
| VStr (s : jsstring)
| VOther (o : other).
Arguments VUndefined {other}.
Arguments VNull {other}.
Arguments VBool {other} b.
Arguments VStr {other} s.
Arguments VOther {other} o.

(** An object received in the payload (a [Dict] of the source): its own
    properties in the order [Object.entries] lists them. *)
Abbreviation Dict other := (list (jsstring * value other)).

(** An object built by the code (a message element): only its content is
    ever observed, so it is a finite map. *)
Abbreviation MessageElem other := (gmap jsstring (value other)).

(** The payload of [Message.parse], in the shape the platform sends:
    [content], the optional arrays [attachments] and [mentions], and the
    fields the function never reads. *)
Record Payload (other : Type) := {
  content : option jsstring;
  attachments : option (list (Dict other));
  mentions : option (list (Dict other));
  fields : Dict other
}.
Arguments content {other} p.
Arguments attachments {other} p.
Arguments mentions {other} p.
Arguments fields {other} p.

(** An element of the array [attrs]: a string in every branch but
    [@everyone], which stores the two-element array [['all', true]]. *)
Inductive attr (other : Type) :=
| AttrStr (s : jsstring)
| AttrPair (k : jsstring) (v : value other).
Arguments AttrStr {other} s.
Arguments AttrPair {other} k v.

(** The local variables of the scanning loop. *)
Record scan_state (other : Type) := ScanState {
  template : jsstring;
  result : list (MessageElem other);
  brief : jsstring
}.
Arguments ScanState {other} template result brief.
Arguments template {other} s.
Arguments result {other} s.
Arguments brief {other} s.

(** [try { body } catch { handler }] *)
Definition try_catch {A} (body handler : outcome A) : outcome A :=
  match body with
  | Thrown _ => handler
  | _ => body
  end.

(** ** GuildMessageEvent *)

Section Events.
Variables Guild Channel : Type.

(** The two lookups of the bot that the accessors call. *)
Record Bot := {
  pickGuild : jsstring -> outcome Guild;
  pickChannel : jsstring -> outcome Channel
}.

Record GuildMessageEvent := {
  bot : Bot;
  guild_id : jsstring;
  channel_id : jsstring
}.

(** [get guild()]; [None] is [null]. *)
Definition guild (e : GuildMessageEvent) : outcome (option Guild) :=
  try_catch (g ← pickGuild (bot e) (guild_id e); mret (Some g)) (mret None).

(** [get channel()] *)
Definition channel (e : GuildMessageEvent) : outcome (option Channel) :=
  try_catch (c ← pickChannel (bot e) (channel_id e); mret (Some c)) (mret None).
End Events.
Arguments pickGuild {Guild Channel} b _.
Arguments pickChannel {Guild Channel} b _.
Arguments bot {Guild Channel} g.
Arguments guild_id {Guild Channel} g.
Arguments channel_id {Guild Channel} g.
Arguments guild {Guild Channel} e.
Arguments channel {Guild Channel} e.

(** No value of another kind: the instance used for concrete payloads. *)
Definition show_none (o : Empty_set) : jsstring := match o with end.

(** The markup of a bracket tag: the type and the attribute tokens,
    separated by commas, between [<] and [>]. *)
Definition bracket_tag (type : jsstring) (attrs : list jsstring) : jsstring :=
  js "<" ++ join (js ",") (type :: attrs) ++ js ">".

(** [t] is a bracket tag for the scanner: it begins with [<] and the
    regular expression matches exactly [t] at the start of every string
    that begins with [t]. *)
Definition bracket_match (t : jsstring) : Prop :=
  startsWith t (js "<") = true /\
  forall r, match_here scanner_regex (t ++ r) = Some t.

(** Concrete payloads and records for the examples. *)
Definition example_payload (c : string)
    (atts ments : option (list (Dict Empty_set))) : Payload Empty_set :=
  {| content := Some (js c); attachments := atts; mentions := ments;
     fields := [(js "id", VStr (js "m1"))] |}.

Definition image_attachment : Dict Empty_set :=
  [ (js "content_type", VStr (js "image/png"));
    (js "src", VStr (js "cdn.x/a.png"));
    (js "url", VStr (js "cdn.x/a.png")) ].

Definition typed_attachment : Dict Empty_set :=
  [ (js "content_type", VStr (js "image/png"));
    (js "type", VStr (js "x"));
    (js "src", VStr (js "a"));
    (js "url", VStr (js "b")) ].

Definition ann : Dict Empty_set :=
  [ (js "id", VStr (js "123")); (js "username", VStr (js "ann")) ].


(** A bot whose lookups always throw. *)
Definition failing_bot : Bot unit unit :=
  {| pickGuild := fun _ => Thrown TypeError;
     pickChannel := fun _ => Thrown TypeError |}.

(** A tag of the round trip through the brief: no comma and no [>]
    inside the type and the attribute tokens, at least one attribute token
    unless the type is a shorthand face code, and no mention tag. *)
Definition plain_tag (t : jsstring * list jsstring) : Prop :=
  Forall (fun w => (44%N ∉ w) /\ (62%N ∉ w)) (t.1 :: t.2) /\
  (t.2 <> [] \/ shorthand_test t.1 = true) /\
  startsWith t.1 (js "@!") = false /\
  t.1 <> js "@everyone".

(** An opening code unit of the scanner's regular expression. *)
Definition is_opener (c : N) : bool :=
  existsb (fun a => N.eqb c (alt_open a)) scanner_regex.

(** The markup of an attribute: a key, followed by [=] and a value when
    it has one. *)
Definition attr_markup (kv : jsstring * option jsstring) : jsstring :=
  match kv.2 with
  | Some v => kv.1 ++ js "=" ++ v
  | None => kv.1
  end.

(** An attachment without a content type. *)
Definition untyped_attachment : Dict Empty_set :=
  [ (js "url", VStr (js "cdn.x/b.png")) ].

(** The cut of a template into pieces that the loop makes. [t] is the
    first piece of [t ++ rest]: either the match of the regular expression
    at the start, or, when no match starts there, the text up to the first
    position at which one starts (up to the end when there is none). *)
Definition first_piece (t rest : jsstring) : Prop :=
  t <> [] /\
  (match_here scanner_regex (t ++ rest) = Some t \/
   ((forall k, (k < length t)%nat ->
               match_here scanner_regex (drop k (t ++ rest)) = None) /\
    (rest = [] \/ is_Some (match_here scanner_regex rest)))).

Fixpoint pieces (tokens : list jsstring) : Prop :=
  match tokens with
  | [] => True
  | t :: tokens' => first_piece t (concat tokens') /\ pieces tokens'
  end.

(** A decidable fact about literals, settled by evaluation. *)
Ltac decide_literal := apply (bool_decide_unpack _); by vm_compute.

(** ** Message.parse *)

Section Parse.
Context {other : Type}.
Variable show : other -> jsstring.
(** [String.prototype.toLowerCase] *)
Variable toLowerCase : jsstring -> jsstring.
(** [trimQuote] of [@/utils] *)
Variable trimQuote : jsstring -> jsstring.

(** String conversion of a value inside a template literal. *)
Definition to_string (v : value other) : jsstring :=
  match v with
  | VUndefined => js "undefined"
  | VNull => js "null"
  | VBool true => js "true"
  | VBool false => js "false"
  | VStr s => s
  | VOther o => show o
  end.

(** [o[k]]: [undefined] when [o] has no property [k]. *)
Fixpoint obj_get (o : Dict other) (k : jsstring) : value other :=
  match o with
  | [] => VUndefined
  | (k', v) :: o' => if str_eqb k' k then v else obj_get o' k
  end.

(** The rest pattern [{k, ...data} = o]: the properties other than [k]. *)
Definition obj_rest (k : jsstring) (o : Dict other) : Dict other :=
  filter (fun kv => kv.1 <> k) o.

(** [{...base, ...o}] for a received object [o]. *)
Definition spread (base : MessageElem other) (o : Dict other) : MessageElem other :=
  fold_left (fun m kv => <[fst kv := snd kv]> m) o base.

(** [Object.fromEntries(pairs)]: a later pair overrides an earlier one
    with the same key. *)
Definition Object_fromEntries (pairs : Dict other) : MessageElem other :=
  spread ∅ pairs.

(** [{type, ...o}] for a built object [o]: the properties of [o] win. *)
Definition with_type (type : jsstring) (o : MessageElem other) : MessageElem other :=
  o ∪ {[ js "type" := VStr type ]}.

(** [{type: 'text', text}] *)
Definition text_elem (text : jsstring) : MessageElem other :=
  {[ js "type" := VStr (js "text"); js "text" := VStr text ]}.

(** The template literal [`${key}=${value}`] of lines 207 and 250. *)
Definition entry_token (kv : jsstring * value other) : jsstring :=
  fst kv ++ js "=" ++ to_string (snd kv).

(** [payload.mentions.find((u) => u.id === id) || {}] on a present
    list; strict equality holds for a string with the same code units. *)
Definition id_is (id : jsstring) (u : Dict other) : bool :=
  match obj_get u (js "id") with
  | VStr s => str_eqb s id
  | _ => false
  end.

Definition find_mention (ms : list (Dict other)) (id : jsstring) : Dict other :=
  match List.find (id_is id) ms with
  | Some u => u
  | None => []
  end.


(** Lines 199-215: the type and the attributes of a bracket tag. *)
Definition normalize_tag (mentions : option (list (Dict other)))
    (type : jsstring) (attrs : list jsstring)
  : outcome (jsstring * list (attr other)) :=
  if startsWith type (js "faceType") then
    mret (js "face",
          map (fun a => AttrStr (replace a (js "faceId") (js "id"))) attrs)
  else if startsWith type (js "@") then
    if startsWith type (js "@!") then
      let id := slice type 2 None in
      match mentions with
      | None => Thrown TypeError   (* [undefined.find] *)
      | Some ms => mret (js "at", map (fun kv => AttrStr (entry_token kv)) (find_mention ms id))
      end
    else if str_eqb type (js "@everyone") then
      mret (js "at", [AttrPair (js "all") (VBool true)])
    else mret (type, map AttrStr attrs)
  else if shorthand_test type then
    mret (js "face",
          [AttrStr (js "id=" ++ match split 58 type !! 1%nat with
                                | Some d => d
                                | None => js "undefined"
                                end)])
  else mret (type, map AttrStr attrs).

(** The callback of line 218: [attr.split] exists on a string only. *)
Definition attr_entry (a : attr other) : outcome (jsstring * value other) :=
  match a with
  | AttrStr s =>
      match split 61 s with
      | key :: values =>
          mret (toLowerCase key, VStr (trimQuote (join (js "=") values)))
      | [] => Thrown TypeError
      end
  | AttrPair _ _ => Thrown TypeError   (* [attr.split is not a function] *)
  end.

(** An element of [attrs] inside [attrs.join(',')]. *)
Definition attr_text (a : attr other) : jsstring :=
  match a with
  | AttrStr s => s
  | AttrPair k v => k ++ js "," ++ to_string v
  end.

(** The template literal of line 223. *)
Definition tag_brief (type : jsstring) (attrs : list (attr other)) : jsstring :=
  js "<" ++ type ++ js "," ++ join (js ",") (map attr_text attrs) ++ js ">".

(** Lines 198-223: a bracket tag [m] appended to [result] and [brief]. *)
Definition scan_tag (mentions : option (list (Dict other))) (m : jsstring)
    (result : list (MessageElem other)) (brief : jsstring)
  : outcome (list (MessageElem other) * jsstring) :=
  match split 44 (slice m 1 (Some (-1))) with
  | [] => Thrown TypeError
  | type :: attrs =>
      '(type, attrs) ← normalize_tag mentions type attrs;
      entries ← mapM attr_entry attrs;
      mret (result ++ [with_type type (Object_fromEntries entries)],
            brief ++ tag_brief type attrs)
  end.

(** Lines 187-230: the body of the loop once [match] is known. *)
Definition scan_step (mentions : option (list (Dict other))) (m : jsstring)
    (st : scan_state other) : outcome (scan_state other) :=
  let index := indexOf (template st) m in
  let prevText := slice (template st) 0 (Some index) in
  let '(result, brief) :=
    match prevText with
    | [] => (result st, brief st)
    | _ => (result st ++ [text_elem prevText], brief st ++ prevText)
    end in
  let template := slice (template st) (index + Z.of_nat (length m)) None in
  if startsWith m (js "<") then
    '(result, brief) ← scan_tag mentions m result brief;
    mret (ScanState template result brief)
  else
    mret (ScanState template (result ++ [text_elem m]) (brief ++ m)).

(** Lines 184-231. The loop shortens [template] in every round, so
    [length template] rounds of fuel are enough ([scan_loop_fuel]). *)
Fixpoint scan_loop (fuel : nat) (mentions : option (list (Dict other)))
    (st : scan_state other) : outcome (scan_state other) :=
  match template st with
  | [] => mret st                               (* [template.length] is 0 *)
  | _ :: _ =>
      match first_match (template st) with
      | None | Some [] => mret st                (* [if (!match) break] *)
      | Some m =>
          match fuel with
          | O => OutOfFuel
          | S fuel' =>
              st' ← scan_step mentions m st;
              scan_loop fuel' mentions st'
          end
      end
  end.

(** The object literal of lines 244-249. *)
Definition attachment_elem (type : jsstring) (data : Dict other) : MessageElem other :=
  <[js "url" := VStr (js "https://" ++ to_string (obj_get data (js "url")))]>
    (<[js "src" := VStr (js "https://" ++ to_string (obj_get data (js "src")))]>
       (spread {[ js "type" := VStr type ]} data)).

(** The template literal of line 250. *)
Definition attachment_brief (type : jsstring) (data : Dict other) : jsstring :=
  js "<" ++ type ++ js "," ++ join (js ",") (map entry_token data) ++ js ">".

(** Lines 242-250: one attachment appended to [result] and [brief]. *)
Definition push_attachment (acc : list (MessageElem other) * jsstring)
    (attachment : Dict other) : outcome (list (MessageElem other) * jsstring) :=
  let content_type := obj_get attachment (js "content_type") in
  let data := obj_rest (js "content_type") attachment in
  match content_type with
  | VStr ct =>
      match split 47 ct with
      | type :: _ =>
          mret (acc.1 ++ [attachment_elem type data],
                acc.2 ++ attachment_brief type data)
      | [] => Thrown TypeError
      end
  | _ => Thrown TypeError          (* no [split] method to call *)
  end.

(** [for (const attachment of attachments)] *)
Fixpoint for_of (atts : list (Dict other)) (acc : list (MessageElem other) * jsstring)
  : outcome (list (MessageElem other) * jsstring) :=
  match atts with
  | [] => mret acc
  | a :: atts' => acc' ← push_attachment acc a; for_of atts' acc'
  end.

(** [payload.content || ''] *)
Definition content_text (payload : Payload other) : jsstring :=
  default [] (content payload).

(** Lines 179-238: the scanner on the content. *)
Definition scan (payload : Payload other) : outcome (list (MessageElem other) * jsstring) :=
  let source := content_text payload in
  st ← scan_loop (length source) (mentions payload) (ScanState source [] []);
  match st.(template) with
  | [] => mret (st.(result), st.(brief))
  | t => mret (st.(result) ++ [text_elem t], st.(brief) ++ t)
  end.

(** What the loop appends for one token [t] of the content: what
    [scan_tag] gives for a bracket tag; a text element and the text itself
    for any other token (the text before a match, a quoted span, the text
    after the last match). *)
Definition token_output (mentions : option (list (Dict other))) (t : jsstring)
    (o : MessageElem other * jsstring) : Prop :=
  t <> [] /\
  ((~ bracket_match t /\ o = (text_elem t, t)) \/
   (bracket_match t /\ scan_tag mentions t [] [] = Returned ([o.1], o.2))).

(** What the loop over the attachments appends for one attachment. *)
Definition attachment_output (a : Dict other)
    (o : MessageElem other * jsstring) : Prop :=
  push_attachment ([], []) a = Returned ([o.1], o.2).

(** Lines 179-252: what [parse] computes before it touches the payload. *)
Definition parse_value (payload : Payload other) : outcome (list (MessageElem other) * jsstring) :=
  acc ← scan payload;
  match attachments payload with
  | Some atts => for_of atts acc
  | None => mret acc
  end.

(** Lines 253-254 *)
Definition delete_attachments (payload : Payload other) : Payload other :=
  {| content := content payload; attachments := None;
     mentions := mentions payload; fields := fields payload |}.

Definition delete_mentions (payload : Payload other) : Payload other :=
  {| content := content payload; attachments := attachments payload;
     mentions := None; fields := fields payload |}.

(** [Message.parse]: its outcome and the payload object afterwards. An
    exception leaves the function before the two [delete]s. *)
Definition parse (payload : Payload other)
  : outcome (list (MessageElem other) * jsstring) * Payload other :=
  match parse_value payload with
  | Returned r => (Returned r, delete_mentions (delete_attachments payload))
  | o => (o, payload)
  end.

(** Lines 189-195 and 232-238: a text is pushed only when it is not
    empty. *)
Definition text_of (t : jsstring) : list (MessageElem other) :=
  match t with
  | [] => []
  | _ => [text_elem t]
  end.


(** ** String operations *)

Lemma startsWith_spec (s p : jsstring) :
  startsWith s p = true <-> exists r, s = p ++ r.
Proof.
  revert s; induction p as [|c p IH]; intros s; simpl.
  - split; [intros _; by exists s | done].
  - destruct s as [|d s]; simpl.
    + split; [discriminate | intros [r Hr]; discriminate].
    + rewrite andb_true_iff, N.eqb_eq, IH. split.
      * intros [-> [r ->]]. eauto.
      * intros [r Hr]. injection Hr as -> ->. eauto.
Qed.

Lemma startsWith_app (p r : jsstring) : startsWith (p ++ r) p = true.
Proof. apply startsWith_spec; eauto. Qed.

Lemma clamp_index_in_range (len i : Z) :
  0 <= i <= len -> clamp_index len i = i.
Proof. unfold clamp_index; intros; destruct (Z.ltb_spec i 0); lia. Qed.

Lemma slice_prefix (pre r : jsstring) :
  slice (pre ++ r) 0 (Some (Z.of_nat (length pre))) = pre.
Proof.
  unfold slice. rewrite !clamp_index_in_range by (rewrite ?length_app; lia).
  rewrite Z.sub_0_r, Z.max_l by lia. simpl. rewrite Nat2Z.id.
  apply take_app_length.
Qed.

Lemma slice_suffix (pre r : jsstring) (i : Z) :
  i = Z.of_nat (length pre) -> slice (pre ++ r) i None = r.
Proof.
  intros ->. unfold slice.
  rewrite clamp_index_in_range by (rewrite length_app; lia).
  rewrite Nat2Z.id, drop_app_length, length_app.
  apply take_ge. lia.
Qed.

Lemma slice_inner (c d : N) (w : jsstring) :
  slice (c :: w ++ [d]) 1 (Some (-1)) = w.
Proof.
  unfold slice, clamp_index. simpl length. rewrite length_app. simpl.
  replace (1 <? 0) with false by reflexivity.
  replace (-1 <? 0) with true by reflexivity.
  rewrite Z.min_l, Z.max_l by lia.
  change (Z.to_nat 1) with 1%nat. simpl drop.
  rewrite Z.max_l by lia.
  replace (Z.to_nat _) with (length w) by lia.
  apply take_app_length.
Qed.

Lemma split_cons_ne (sep c : N) (s : jsstring) :
  c <> sep ->
  exists w ws, split sep s = w :: ws /\ split sep (c :: s) = (c :: w) :: ws.
Proof.
  intros Hc. simpl. destruct (N.eqb_spec c sep); [done|].
  destruct (split sep s) as [|w ws] eqn:E; [|eauto].
  destruct s; simpl in E; [discriminate|].
  destruct (N.eqb _ _); [discriminate|].
  destruct (split sep s); discriminate.
Qed.

Lemma split_nonempty (sep : N) (s : jsstring) : split sep s <> [].
Proof.
  destruct s as [|c s]; simpl; [done|].
  destruct (N.eqb c sep); [done|]. by destruct (split sep s).
Qed.

(** A string without the separator is one part. *)
Lemma split_none (sep : N) (s : jsstring) : sep ∉ s -> split sep s = [s].
Proof.
  induction s as [|c s IH]; intros H; [done|].
  apply not_elem_of_cons in H as [Hc Hs]. simpl.
  destruct (N.eqb_spec c sep); [congruence|]. by rewrite IH.
Qed.

(** Splitting at the first separator. *)
Lemma split_app (sep : N) (w r : jsstring) :
  sep ∉ w -> split sep (w ++ sep :: r) = w :: split sep r.
Proof.
  induction w as [|c w IH]; intros H; simpl.
  - by rewrite N.eqb_refl.
  - apply not_elem_of_cons in H as [Hc Hw].
    destruct (N.eqb_spec c sep); [congruence|]. by rewrite IH.
Qed.

(** [split] undoes [join] when no part holds the separator. *)
Lemma split_join (sep : N) (w : jsstring) (ws : list jsstring) :
  Forall (fun x => sep ∉ x) (w :: ws) ->
  split sep (join [sep] (w :: ws)) = w :: ws.
Proof.
  revert w; induction ws as [|v ws IH]; intros w H.
  - simpl. apply split_none. by inversion H.
  - inversion H as [|? ? Hw Hr]; subst.
    change (join [sep] (w :: v :: ws)) with (w ++ sep :: join [sep] (v :: ws)).
    rewrite split_app by done. by rewrite IH.
Qed.

(** [join] undoes [split]. *)
Lemma join_split (sep : N) (s : jsstring) : join [sep] (split sep s) = s.
Proof.
  induction s as [|c s IH]; [done|]. simpl.
  destruct (N.eqb_spec c sep) as [->|Hc].
  - destruct (split sep s) as [|w ws] eqn:E; [by destruct (split_nonempty sep s)|].
    change (join [sep] ([] :: w :: ws)) with (sep :: join [sep] (w :: ws)).
    by rewrite IH.
  - destruct (split sep s) as [|w ws] eqn:E; [by destruct (split_nonempty sep s)|].
    destruct ws; simpl in *; by rewrite <- IH.
Qed.

(** The parts of a split hold code units of the string only. *)
Lemma split_elem (sep c : N) (s w : jsstring) :
  w ∈ split sep s -> c ∈ w -> c ∈ s.
Proof.
  revert w; induction s as [|d s IH]; intros w Hw Hc; simpl in Hw.
  - apply list_elem_of_singleton in Hw as ->. done.
  - destruct (N.eqb d sep).
    + apply elem_of_cons in Hw as [->|Hw]; [by apply elem_of_nil in Hc|].
      right. eauto.
    + destruct (split sep s) as [|v vs] eqn:E.
      * apply list_elem_of_singleton in Hw as ->.
        apply list_elem_of_singleton in Hc as ->. left.
      * apply elem_of_cons in Hw as [->|Hw].
        -- apply elem_of_cons in Hc as [->|Hc]; [left|right].
           apply (IH v); [left|done].
        -- right. apply (IH w); [by right|done].
Qed.

Lemma split_no_sep (sep : N) (s w : jsstring) : w ∈ split sep s -> sep ∉ w.
Proof.
  revert w; induction s as [|d s IH]; intros w Hw; simpl in Hw.
  - apply list_elem_of_singleton in Hw as ->. apply not_elem_of_nil.
  - destruct (N.eqb_spec d sep).
    + apply elem_of_cons in Hw as [->|Hw]; [apply not_elem_of_nil|eauto].
    + destruct (split sep s) as [|v vs] eqn:E.
      * apply list_elem_of_singleton in Hw as ->.
        apply not_elem_of_cons; split; [congruence | apply not_elem_of_nil].
      * apply elem_of_cons in Hw as [->|Hw].
        -- apply not_elem_of_cons; split; [congruence|]. apply IH. left.
        -- apply IH. by right.
Qed.

(** ** The regular expression *)

Lemma run_until_Some (c : N) (s w : jsstring) :
  run_until c s = Some w -> exists r, s = w ++ c :: r /\ c ∉ w.
Proof.
  revert w; induction s as [|d s IH]; intros w H; simpl in H; [done|].
  destruct (N.eqb_spec d c) as [->|Hd].
  - injection H as <-. exists s. split; [done | apply not_elem_of_nil].
  - destruct (run_until c s) as [w'|]; [|done]. injection H as <-.
    destruct (IH w' eq_refl) as (r & -> & Hw). exists r. split; [done|].
    apply not_elem_of_cons. split; [congruence | done].
Qed.

Lemma run_until_app (c : N) (w r : jsstring) :
  c ∉ w -> run_until c (w ++ c :: r) = Some w.
Proof.
  induction w as [|d w IH]; intros H; simpl.
  - by rewrite N.eqb_refl.
  - apply not_elem_of_cons in H as [Hd Hw].
    destruct (N.eqb_spec d c); [congruence|]. by rewrite IH.
Qed.

(** A match at the start of [s] is a prefix of [s], is not empty, and is
    the match at the start of every string that begins with it. *)
Lemma match_here_inv (s m : jsstring) :
  match_here scanner_regex s = Some m ->
  exists c d w r,
    s = c :: w ++ d :: r /\ m = c :: w ++ [d] /\
    forall r', match_here scanner_regex (m ++ r') = Some m.
Proof.
  destruct s as [|c s]; [done|].
  unfold scanner_regex, match_here, match_alt; simpl.
  repeat match goal with
  | |- context [N.eqb c ?k] =>
      destruct (N.eqb_spec c k) as [->|?];
      [ destruct (run_until _ s) as [w|] eqn:E; simpl;
        [ apply run_until_Some in E as (r & -> & Hw) | done ] | ]
  end; try done.
  all: lazymatch goal with
       | |- Some (?c :: ?w ++ [?d]) = Some _ -> _ =>
           intros [= <-]; exists c, d, w, r
       | |- _ =>
           destruct w as [|x w]; simpl; [done|];
           intros [= <-]; exists 60%N, 62%N, (x :: w), r
       end.
  all: split; [reflexivity|]; split; [reflexivity|]; intros r'; simpl;
       rewrite <- ?app_assoc; simpl.
  all: try (apply not_elem_of_cons in Hw as [Hx Hw];
            destruct (N.eqb_spec x 62); [congruence|]).
  all: rewrite run_until_app by done; simpl; reflexivity.
Qed.

(** [template.match(regex)] and [template.indexOf(match)]: the match is
    found at the position the regular expression matched at. *)
Lemma first_match_inv (s m : jsstring) :
  first_match s = Some m ->
  exists pre post,
    s = pre ++ m ++ post /\ m <> [] /\
    (forall r', match_here scanner_regex (m ++ r') = Some m) /\
    (forall i, indexOf_from i s m = i + Z.of_nat (length pre)) /\
    (pre = [] \/ match_here scanner_regex s = None).
Proof.
  induction s as [|c s IH]; intros H.
  - simpl in H. done.
  - cbn [first_match] in H.
    destruct (match_here scanner_regex (c :: s)) as [m0|] eqn:E.
    + injection H as ->.
      destruct (match_here_inv _ _ E) as (c' & d & w & r & Hs & -> & Hst).
      assert (Hsm : c :: s = (c' :: w ++ [d]) ++ r)
        by (rewrite Hs; simpl; by rewrite <- app_assoc).
      exists [], r. split; [done|]. split; [done|]. split; [done|].
      split; [|by left].
      intros i. cbn [indexOf_from]. rewrite Hsm, startsWith_app. simpl. lia.
    + destruct (IH H) as (pre & post & -> & Hm & Hst & Hi & _).
      exists (c :: pre), post. split; [done|]. split; [done|]. split; [done|].
      split; [|by right].
      intros i. cbn [indexOf_from].
      destruct (startsWith (c :: pre ++ m ++ post) m) eqn:Hsw.
      * apply startsWith_spec in Hsw as [r' Hr']. rewrite Hr', Hst in E. done.
      * rewrite Hi. simpl length. lia.
Qed.

Lemma first_match_tag (inner rest : jsstring) :
  inner <> [] -> 62%N ∉ inner ->
  first_match (60%N :: inner ++ 62%N :: rest) = Some (60%N :: inner ++ [62%N]).
Proof.
  intros Hne H. cbn [first_match].
  unfold scanner_regex, match_here, match_alt. simpl.
  rewrite run_until_app by done. destruct inner; [done|]. reflexivity.
Qed.

Lemma indexOf_prefix (m post : jsstring) : indexOf (m ++ post) m = 0.
Proof.
  unfold indexOf. destruct (m ++ post) eqn:E; cbn [indexOf_from];
    rewrite <- E, startsWith_app; reflexivity.
Qed.

(** ** The scanning loop *)

Lemma scan_loop_unfold (fuel : nat) (ms : option (list (Dict other)))
    (st : scan_state other) :
  scan_loop fuel ms st =
  match template st with
  | [] => mret st
  | _ :: _ =>
      match first_match (template st) with
      | None | Some [] => mret st
      | Some m =>
          match fuel with
          | O => OutOfFuel
          | S fuel' => st' ← scan_step ms m st; scan_loop fuel' ms st'
          end
      end
  end.
Proof. destruct fuel; reflexivity. Qed.

(** One round on the match [m] found after the text [pre]. *)
Lemma scan_step_eq (ms : option (list (Dict other))) (st : scan_state other)
    (m : jsstring) :
  first_match (template st) = Some m ->
  exists pre post,
    template st = pre ++ m ++ post /\ m <> [] /\
    (forall r, match_here scanner_regex (m ++ r) = Some m) /\
    (pre = [] \/ match_here scanner_regex (pre ++ m ++ post) = None) /\
    scan_step ms m st =
      let '(result, brief) :=
        match pre with
        | [] => (result st, brief st)
        | _ => (result st ++ [text_elem pre], brief st ++ pre)
        end in
      if startsWith m (js "<") then
        '(result, brief) ← scan_tag ms m result brief;
        mret (ScanState post result brief)
      else mret (ScanState post (result ++ [text_elem m]) (brief ++ m)).
Proof.
  intros H.
  destruct (first_match_inv _ _ H) as (pre & post & Ht & Hm & Hst & Hi & Hpre).
  exists pre, post. split; [done|]. split; [done|]. split; [done|].
  split; [by rewrite <- Ht|].
  unfold scan_step, indexOf. rewrite Hi, Ht, slice_prefix. simpl Z.add.
  rewrite (app_assoc pre m post), (slice_suffix (pre ++ m) post)
    by (rewrite length_app; lia).
  reflexivity.
Qed.

(** One round on a match at the very start of the template. *)
Lemma scan_step_at_start (ms : option (list (Dict other)))
    (st : scan_state other) (m post : jsstring) :
  template st = m ++ post ->
  scan_step ms m st =
    if startsWith m (js "<") then
      '(result, brief) ← scan_tag ms m (result st) (brief st);
      mret (ScanState post result brief)
    else mret (ScanState post (result st ++ [text_elem m]) (brief st ++ m)).
Proof.
  intros Ht. unfold scan_step. rewrite Ht, indexOf_prefix.
  change (slice (m ++ post) 0 (Some 0)) with (slice ([] ++ m ++ post) 0 (Some (Z.of_nat (length (@nil N))))).
  rewrite slice_prefix. simpl Z.add.
  rewrite (slice_suffix m post) by done. reflexivity.
Qed.

Lemma scan_step_shortens (ms : option (list (Dict other)))
    (st st' : scan_state other) (m : jsstring) :
  first_match (template st) = Some m ->
  scan_step ms m st = Returned st' ->
  (length (template st') < length (template st))%nat.
Proof.
  intros H Hs.
  destruct (scan_step_eq ms st m H) as (pre & post & Ht & Hm & _ & _ & E).
  rewrite E in Hs. clear E.
  assert (length post < length (template st))%nat as Hlt.
  { rewrite Ht, !length_app. destruct m; [done|]. simpl. lia. }
  destruct (startsWith m (js "<")); destruct pre; cbv zeta beta iota in Hs.
  1,2: destruct (scan_tag _ _ _ _) as [[r b]| |]; try discriminate.
  all: injection Hs as <-; exact Hlt.
Qed.

Lemma mapM_cons {A B : Type} (f : A -> outcome B) (x : A) (l : list A) :
  mapM f (x :: l) = y ← f x; k ← mapM f l; mret (y :: k).
Proof. reflexivity. Qed.

Lemma mapM_fuel {A B : Type} (f : A -> outcome B) (l : list A) :
  (forall x, f x <> OutOfFuel) -> mapM f l <> OutOfFuel.
Proof.
  intros Hf. induction l as [|x l IH]; [done|]. cbn.
  specialize (Hf x). destruct (f x); [|done|done].
  cbn. by destruct (mapM f l).
Qed.

Lemma attr_entry_fuel (a : attr other) :
  attr_entry a <> OutOfFuel.
Proof. destruct a as [s|]; [|done]. cbn. by destruct (split 61 s). Qed.

Lemma normalize_tag_fuel (ms : option (list (Dict other))) (type : jsstring)
    (attrs : list jsstring) :
  normalize_tag ms type attrs <> OutOfFuel.
Proof.
  unfold normalize_tag.
  repeat match goal with
         | |- context [if ?b then _ else _] => destruct b
         end; try done.
  by destruct ms.
Qed.

Lemma scan_tag_fuel (ms : option (list (Dict other))) (m : jsstring)
    (r : list (MessageElem other)) (b : jsstring) :
  scan_tag ms m r b <> OutOfFuel.
Proof.
  unfold scan_tag. destruct (split 44 _) as [|type attrs]; [done|].
  pose proof (normalize_tag_fuel ms type attrs) as Hn.
  destruct (normalize_tag ms type attrs) as [[ty ats]| |]; [|done|done].
  cbn. pose proof (mapM_fuel _ ats attr_entry_fuel) as Hm.
  by destruct (mapM _ ats).
Qed.

Lemma scan_step_fuel (ms : option (list (Dict other))) (m : jsstring)
    (st : scan_state other) :
  scan_step ms m st <> OutOfFuel.
Proof.
  unfold scan_step.
  destruct (slice (template st) 0 _); cbv zeta beta iota.
  all: destruct (startsWith m (js "<")); [|done].
  all: match goal with
       | |- context [scan_tag ?ms ?m ?r ?b] =>
           pose proof (scan_tag_fuel ms m r b);
           by destruct (scan_tag ms m r b) as [[]| |]
       end.
Qed.

(** The fuel [parse] gives the loop is enough. *)
Lemma scan_loop_fuel (fuel : nat) (ms : option (list (Dict other)))
    (st : scan_state other) :
  (length (template st) <= fuel)%nat ->
  scan_loop fuel ms st <> OutOfFuel.
Proof.
  revert st; induction fuel as [|fuel IH]; intros st Hlen;
    rewrite scan_loop_unfold.
  - destruct (template st); [done | simpl in Hlen; lia].
  - destruct (template st) as [|c t] eqn:Et; [done|].
    destruct (first_match (c :: t)) as [[|x m]|] eqn:Em; [done| |done].
    rewrite <- Et in Em.
    pose proof (scan_step_fuel ms (x :: m) st) as Hf.
    destruct (scan_step ms (x :: m) st) as [st'| |] eqn:Es; [|done|done].
    cbn. apply IH.
    pose proof (scan_step_shortens _ _ _ _ Em Es) as Hs.
    rewrite Et in Hs. simpl in Hs, Hlen. lia.
Qed.

Lemma for_of_fuel (atts : list (Dict other))
    (acc : list (MessageElem other) * jsstring) :
  for_of atts acc <> OutOfFuel.
Proof.
  revert acc; induction atts as [|a atts IH]; intros acc; [done|]. cbn.
  unfold push_attachment.
  destruct (obj_get a (js "content_type")) as [| | |ct|]; try done.
  destruct (split 47 ct); [done|]. cbn. apply IH.
Qed.

(** [Message.parse] finishes: the loop never runs out of fuel. *)
Theorem parse_enough_fuel (p : Payload other) : (parse p).1 <> OutOfFuel.
Proof.
  unfold parse.
  assert (parse_value p <> OutOfFuel) as H; [|by destruct (parse_value p)].
  unfold parse_value, scan.
  pose proof (scan_loop_fuel (length (content_text p)) (mentions p)
                (ScanState (content_text p) [] []) (le_n _)) as Hs.
  destruct (scan_loop _ _ _) as [st| |]; [|done|done]. cbn.
  destruct (template st); cbn; destruct (attachments p); try done.
  all: apply for_of_fuel.
Qed.

(** A bracket tag at the start of the template. *)
Lemma scan_loop_tag (fuel : nat) (ms : option (list (Dict other)))
    (st : scan_state other) (inner rest : jsstring) :
  template st = js "<" ++ inner ++ js ">" ++ rest ->
  inner <> [] -> 62%N ∉ inner ->
  (length (template st) <= fuel)%nat ->
  scan_loop fuel ms st =
    '(r, b) ← scan_tag ms (js "<" ++ inner ++ js ">") (result st) (brief st);
    scan_loop (pred fuel) ms (ScanState rest r b).
Proof.
  intros Ht Hne Hin Hlen. rewrite scan_loop_unfold, Ht.
  change (js "<" ++ inner ++ js ">" ++ rest) with (60%N :: inner ++ 62%N :: rest).
  change (js "<" ++ inner ++ js ">") with (60%N :: inner ++ [62%N]).
  rewrite first_match_tag by done.
  rewrite (scan_step_at_start ms st (60%N :: inner ++ [62%N]) rest)
    by (rewrite Ht; simpl; by rewrite <- app_assoc).
  change (startsWith (60%N :: inner ++ [62%N]) (js "<")) with true.
  destruct fuel as [|fuel]; [rewrite Ht in Hlen; simpl in Hlen; lia|].
  cbv iota. by destruct (scan_tag _ _ _ _) as [[r b]| |].
Qed.

Lemma scan_tag_inner (ms : option (list (Dict other))) (inner : jsstring)
    (r : list (MessageElem other)) (b : jsstring) :
  scan_tag ms (js "<" ++ inner ++ js ">") r b =
  match split 44 inner with
  | [] => Thrown TypeError
  | type :: attrs =>
      '(type, attrs) ← normalize_tag ms type attrs;
      entries ← mapM attr_entry attrs;
      mret (r ++ [with_type type (Object_fromEntries entries)],
            b ++ tag_brief type attrs)
  end.
Proof.
  unfold scan_tag.
  change (js "<" ++ inner ++ js ">") with (60%N :: inner ++ [62%N]).
  by rewrite slice_inner.
Qed.

Lemma content_text_Some (p : Payload other) (s : jsstring) :
  content p = Some s -> content_text p = s.
Proof. unfold content_text. by intros ->. Qed.

(** ** The claims on [Message.parse] *)

(** When the first match of the loop is a bracket tag on which [scan_tag]
    throws, whatever the accumulators, [Message.parse] throws and leaves
    the payload as it was. *)
Lemma parse_first_tag_throws (p : Payload other) (s m : jsstring) :
  content p = Some s ->
  first_match s = Some m ->
  startsWith m (js "<") = true ->
  (forall r b, scan_tag (mentions p) m r b = Thrown TypeError) ->
  parse p = (Thrown TypeError, p).
Proof.
  intros Hc Hm Hsw Hthrow. unfold parse, parse_value, scan.
  rewrite (content_text_Some _ _ Hc), scan_loop_unfold. cbn [template].
  rewrite Hm.
  destruct s as [|c s]; [done|].
  destruct m as [|x m]; [done|].
  destruct (scan_step_eq (mentions p) (ScanState (c :: s) [] []) (x :: m) Hm)
    as (pre & post & _ & _ & _ & _ & E).
  cbn [length]. rewrite E, Hsw.
  by destruct pre; cbv zeta beta iota; rewrite Hthrow.
Qed.

(** C1. The claim asks that the tag [<@everyone>] yields the element
    [{type: 'at', all: true}] without an exception. The code stores the
    array [['all', true]] in [attrs], and the callback of line 218 calls
    [split] on it: when the first quoted span or bracket tag of the content
    is [<@everyone>], whatever the payload, [Message.parse] throws a
    TypeError and leaves the payload as it was. *)
Theorem parse_everyone_throws (p : Payload other) (s : jsstring) :
  content p = Some s ->
  first_match s = Some (js "<@everyone>") ->
  parse p = (Thrown TypeError, p).
Proof.
  intros Hc Hm.
  apply (parse_first_tag_throws p s (js "<@everyone>") Hc Hm eq_refl).
  intros r b.
  change (js "<@everyone>") with (js "<" ++ js "@everyone" ++ js ">").
  by rewrite scan_tag_inner.
Qed.

(** The type of a tag whose text begins with [@!] begins with [@!]. *)
Lemma split_mention (id : jsstring) :
  exists w ws, split 44 id = w :: ws /\
               split 44 (js "@!" ++ id) = (js "@!" ++ w) :: ws.
Proof.
  destruct (split_cons_ne 44 33 id) as (w & ws & E1 & E2); [done|].
  destruct (split_cons_ne 44 64 (33%N :: id)) as (w' & ws' & E3 & E4); [done|].
  exists w, ws. split; [done|].
  change (js "@!" ++ id) with (64%N :: 33%N :: id).
  rewrite E4. rewrite E2 in E3. by injection E3 as <- <-.
Qed.

(** C2. The claim asks that [Message.parse] returns whenever
    [attachments] or [mentions] is missing or empty, also when the content
    holds an [@!] tag. The array [attachments] is guarded by [if] on line
    240, [mentions] is not: line 206 calls [find] on it as it is, so a
    payload without [mentions] in whose content the first quoted span or
    bracket tag is a tag [<@!id>] makes [Message.parse] throw a
    TypeError. *)
Theorem parse_mention_without_mentions_throws (p : Payload other)
    (s id : jsstring) :
  content p = Some s ->
  first_match s = Some (js "<@!" ++ id ++ js ">") ->
  mentions p = None ->
  parse p = (Thrown TypeError, p).
Proof.
  intros Hc Hm Hnone.
  apply (parse_first_tag_throws p s (js "<@!" ++ id ++ js ">") Hc Hm eq_refl).
  intros r b. rewrite Hnone.
  change (js "<@!" ++ id ++ js ">") with (js "<" ++ (js "@!" ++ id) ++ js ">").
  rewrite scan_tag_inner.
  destruct (split_mention id) as (w & ws & _ & ->). reflexivity.
Qed.

Lemma parse_value_no_match (p : Payload other) (s : jsstring) :
  content p = Some s ->
  first_match s = None ->
  attachments p = None \/ attachments p = Some [] ->
  parse_value p =
    Returned (match s with
              | [] => []
              | _ => [text_elem s]
              end, s).
Proof.
  intros Hc Hm Ha. unfold parse_value, scan.
  rewrite (content_text_Some _ _ Hc), scan_loop_unfold. cbn [template].
  rewrite Hm.
  assert (forall acc : list (MessageElem other) * jsstring,
            match attachments p with
            | Some atts => for_of atts acc
            | None => mret acc
            end = Returned acc) as Hatt
    by (intros acc; destruct Ha as [-> | ->]; reflexivity).
  destruct s; cbn; rewrite Hatt; reflexivity.
Qed.

(** C3. A content without a match of the scanner's regular expression,
    in a payload without attachments, is returned as one text element and
    as the brief; the empty content gives no element and the empty brief. *)
Theorem parse_plain_text (p : Payload other) (s : jsstring) :
  content p = Some s ->
  first_match s = None ->
  attachments p = None \/ attachments p = Some [] ->
  (parse p).1 =
    Returned (match s with
              | [] => []
              | _ => [ {[ js "type" := VStr (js "text"); js "text" := VStr s ]} ]
              end, s).
Proof.
  intros Hc Hm Ha. unfold parse.
  by rewrite (parse_value_no_match p s Hc Hm Ha).
Qed.

(** C9. When [Message.parse] returns, the payload has lost [attachments]
    and [mentions] and kept everything else. *)
Theorem parse_deletes_attachments_and_mentions (p p' : Payload other)
    (r : list (MessageElem other) * jsstring) :
  parse p = (Returned r, p') ->
  attachments p' = None /\ mentions p' = None /\
  content p' = content p /\ fields p' = fields p.
Proof.
  unfold parse. destruct (parse_value p); intros [= <- <-]. done.
Qed.

(** ** Objects *)

Lemma obj_rest_elem (o : Dict other) (k k' : jsstring) (v : value other) :
  (k', v) ∈ obj_rest k o <-> k' <> k /\ (k', v) ∈ o.
Proof. unfold obj_rest. by rewrite list_elem_of_filter. Qed.

Lemma obj_rest_keys (o : Dict other) (k k' : jsstring) :
  k' ∈ (obj_rest k o).*1 <-> k' <> k /\ k' ∈ o.*1.
Proof.
  rewrite !list_elem_of_fmap. split.
  - intros ([k1 v] & -> & [H1 H2]%obj_rest_elem). split; [done|].
    by exists (k1, v).
  - intros [Hne ([k1 v] & -> & Hin)]. exists (k1, v). split; [done|].
    by apply obj_rest_elem.
Qed.

Lemma obj_rest_NoDup (o : Dict other) (k : jsstring) :
  NoDup o.*1 -> NoDup (obj_rest k o).*1.
Proof.
  induction o as [|[k' v'] o IH]; intros Hnd; [done|].
  apply NoDup_cons in Hnd as [Hk Hnd]. unfold obj_rest.
  rewrite filter_cons. case_decide; [|by apply IH].
  rewrite fmap_cons. apply NoDup_cons. split; [|by apply IH].
  intros [_ Hin]%obj_rest_keys. done.
Qed.

Lemma obj_get_rest (o : Dict other) (k k' : jsstring) :
  k' <> k -> obj_get (obj_rest k o) k' = obj_get o k'.
Proof.
  intros Hne. induction o as [|[k1 v1] o IH]; [done|].
  unfold obj_rest. rewrite filter_cons. simpl. unfold str_eqb.
  case_decide as Hk; simpl; unfold str_eqb.
  - case_bool_decide; [done | apply IH].
  - simpl in Hk. subst k1.
    rewrite bool_decide_eq_false_2 by done. apply IH.
Qed.

(** Spreading a received object over [base]: its properties win, the
    others are those of [base]. *)
Lemma spread_union (base : MessageElem other) (o : Dict other) :
  NoDup o.*1 -> spread base o = list_to_map o ∪ base.
Proof.
  revert base; induction o as [|[k v] o IH]; intros base Hnd.
  - simpl. by rewrite (left_id_L ∅ (∪)).
  - rewrite fmap_cons in Hnd. apply NoDup_cons in Hnd as [Hk Hnd].
    change (spread base ((k, v) :: o)) with (spread (<[k:=v]> base) o).
    rewrite IH, list_to_map_cons, <- insert_union_l by done.
    symmetry. apply insert_union_r. by apply not_elem_of_list_to_map_1.
Qed.

(** ** Attachments *)

Lemma push_attachment_acc (acc : list (MessageElem other) * jsstring)
    (a : Dict other) :
  push_attachment acc a =
    '(es, b) ← push_attachment ([], []) a; mret (acc.1 ++ es, acc.2 ++ b).
Proof.
  unfold push_attachment.
  destruct (obj_get a (js "content_type")); try done.
  by destruct (split 47 s).
Qed.

(** The loop over the attachments appends, in their order, what the body
    of the loop gives for each of them. *)
Lemma for_of_Returned (atts : list (Dict other))
    (acc acc' : list (MessageElem other) * jsstring) :
  for_of atts acc = Returned acc' ->
  exists out : list (MessageElem other * jsstring),
    acc' = (acc.1 ++ out.*1, acc.2 ++ concat out.*2) /\
    Forall2 attachment_output atts out.
Proof.
  revert acc; induction atts as [|a atts IH]; intros acc H.
  - injection H as <-. exists []. simpl. rewrite !app_nil_r.
    split; [by destruct acc | constructor].
  - cbn in H. rewrite push_attachment_acc in H.
    destruct (push_attachment ([], []) a) as [[es b]| |] eqn:E; try done.
    cbn in H. apply IH in H as (out & -> & Hout).
    assert (exists e, es = [e]) as [e ->].
    { unfold push_attachment in E.
      destruct (obj_get a (js "content_type")); try done.
      destruct (split 47 s); [done|]. injection E as <- _. eauto. }
    exists ((e, b) :: out). simpl. rewrite <- !app_assoc.
    split; [done|]. by constructor.
Qed.

Lemma for_of_all (atts : list (Dict other))
    (acc : list (MessageElem other) * jsstring) :
  Forall (fun a => exists ct, obj_get a (js "content_type") = VStr ct) atts ->
  exists acc', for_of atts acc = Returned acc'.
Proof.
  revert acc; induction atts as [|a atts IH]; intros acc H; [by eexists|].
  inversion H as [|? ? [ct Hct] Hrest]; subst. cbn.
  unfold push_attachment. rewrite Hct.
  destruct (split 47 ct) as [|type rest] eqn:E; [by destruct (split_nonempty 47 ct)|].
  cbn. by apply IH.
Qed.

Lemma push_attachment_inv (a : Dict other) (e : MessageElem other)
    (b : jsstring) :
  push_attachment ([], []) a = Returned ([e], b) ->
  exists ct type rest,
    obj_get a (js "content_type") = VStr ct /\
    split 47 ct = type :: rest /\
    e = attachment_elem type (obj_rest (js "content_type") a) /\
    b = attachment_brief type (obj_rest (js "content_type") a).
Proof.
  unfold push_attachment.
  destruct (obj_get a (js "content_type")) as [| | |ct|]; try done.
  destruct (split 47 ct) as [|type rest] eqn:E; [done|].
  cbn. intros [= <- <-]. by exists ct, type, rest.
Qed.

(** The first part of a split is the text before the first separator. *)
Lemma split_head (sep : N) (s w : jsstring) (ws : list jsstring) :
  split sep s = w :: ws ->
  (sep ∉ w) /\ (s = w \/ exists r, s = w ++ sep :: r).
Proof.
  intros E. split.
  - apply (split_no_sep sep s). rewrite E. left.
  - rewrite <- (join_split sep s), E. destruct ws as [|v vs]; [by left|].
    right. by exists (join [sep] (v :: vs)).
Qed.

Lemma attachment_elem_url (type : jsstring) (data : Dict other) :
  attachment_elem type data !! js "url" =
    Some (VStr (js "https://" ++ to_string (obj_get data (js "url")))).
Proof. unfold attachment_elem. by rewrite lookup_insert_eq. Qed.

Lemma attachment_elem_src (type : jsstring) (data : Dict other) :
  attachment_elem type data !! js "src" =
    Some (VStr (js "https://" ++ to_string (obj_get data (js "src")))).
Proof.
  unfold attachment_elem.
  rewrite lookup_insert_ne by decide_literal. by rewrite lookup_insert_eq.
Qed.

Lemma attachment_elem_other (type k : jsstring) (data : Dict other) :
  NoDup data.*1 -> k <> js "src" -> k <> js "url" ->
  attachment_elem type data !! k =
    (list_to_map data ∪ {[ js "type" := VStr type ]} : MessageElem other) !! k.
Proof.
  intros Hnd Hs Hu. unfold attachment_elem.
  rewrite !lookup_insert_ne by done. by rewrite spread_union.
Qed.

(** C4 (amended). After a scan that returns, every attachment with a string
    [content_type] gives one more element, in order. Its [src] and [url]
    are [https://] followed by the string form of the original values; it
    carries every other field of the attachment but [content_type]; its
    [type] is the text of [content_type] before the first [/], unless the
    attachment has a field [type] of its own, which then takes its place. *)
Theorem parse_attachment_elements (p : Payload other)
    (acc : list (MessageElem other) * jsstring) (atts : list (Dict other)) :
  scan p = Returned acc ->
  attachments p = Some atts ->
  Forall (fun a => NoDup a.*1 /\
                   exists ct, obj_get a (js "content_type") = VStr ct) atts ->
  exists elems brief,
    (parse p).1 = Returned (acc.1 ++ elems, brief) /\
    Forall2 (fun a e =>
      (forall ct, obj_get a (js "content_type") = VStr ct ->
          js "type" ∉ a.*1 ->
          exists type, e !! js "type" = Some (VStr type) /\ (47%N ∉ type) /\
                       (ct = type \/ exists r, ct = type ++ 47%N :: r)) /\
      (forall v, (js "type", v) ∈ a -> e !! js "type" = Some v) /\
      e !! js "src" = Some (VStr (js "https://" ++ to_string (obj_get a (js "src")))) /\
      e !! js "url" = Some (VStr (js "https://" ++ to_string (obj_get a (js "url")))) /\
      e !! js "content_type" = None /\
      (forall k v, k <> js "type" -> k <> js "src" -> k <> js "url" ->
                   k <> js "content_type" ->
                   (e !! k = Some v <-> (k, v) ∈ a)))
      atts elems.
Proof.
  intros Hscan Hatts Hwf. unfold parse, parse_value. rewrite Hscan, Hatts. cbn.
  destruct (for_of_all atts acc) as [acc' Hfor].
  { eapply Forall_impl; [exact Hwf|]. by intros a [_ H]. }
  rewrite Hfor. apply for_of_Returned in Hfor as (out & -> & Hout).
  exists out.*1, (acc.2 ++ concat out.*2). split; [done|].
  apply Forall2_fmap_r. clear Hatts.
  induction Hout as [|a [e b] atts out Ha Hout IH]; [constructor|].
  apply Forall_cons in Hwf as [[Hnd _] Hwf].
  apply Forall2_cons. split; [|exact (IH Hwf)]. clear IH Hout Hwf.
  unfold attachment_output in Ha. simpl in Ha.
  apply push_attachment_inv in Ha as (ct & type & rest & Hct & Hsp & -> & _).
  cbn [fst compose].
  pose proof (obj_rest_NoDup a (js "content_type") Hnd) as Hnd'.
  assert (forall k, k <> js "src" -> k <> js "url" -> k <> js "type" ->
            forall v, attachment_elem type (obj_rest (js "content_type") a) !! k = Some v
                      <-> k <> js "content_type" /\ (k, v) ∈ a) as Hother.
  { intros k Hs Hu Ht v. rewrite attachment_elem_other by done.
    rewrite lookup_union_Some_raw, lookup_singleton_ne by done.
    rewrite <- elem_of_list_to_map, obj_rest_elem by done.
    split; [intros [?|[_ ?]]; done | by left]. }
  repeat split.
  - intros ct' Hct' Hty. rewrite Hct in Hct'. injection Hct' as <-.
    exists type. rewrite attachment_elem_other by done.
    rewrite lookup_union_r, lookup_singleton_eq.
    + split; [done|]. by apply (split_head 47 ct type rest).
    + apply not_elem_of_list_to_map_1. intros [_ H]%obj_rest_keys. done.
  - intros v Hv. rewrite attachment_elem_other by done.
    apply lookup_union_Some_l. apply elem_of_list_to_map; [done|].
    apply obj_rest_elem. split; [decide_literal | done].
  - rewrite attachment_elem_src. by rewrite obj_get_rest.
  - rewrite attachment_elem_url. by rewrite obj_get_rest.
  - destruct (attachment_elem _ _ !! js "content_type") as [v|] eqn:E; [|done].
    apply Hother in E as [E _]; done.
  - intros Hk. apply Hother in Hk as [_ Hk]; done.
  - intros Hk. apply Hother; done.
Qed.

(** ** The order of the elements *)

Lemma scan_tag_acc (ms : option (list (Dict other))) (m : jsstring)
    (r : list (MessageElem other)) (b : jsstring) :
  scan_tag ms m r b =
    '(es, b') ← scan_tag ms m [] []; mret (r ++ es, b ++ b').
Proof.
  unfold scan_tag. destruct (split 44 _) as [|type attrs]; [done|].
  destruct (normalize_tag ms type attrs) as [[ty ats]| |]; [|done|done].
  cbn. by destruct (mapM attr_entry ats).
Qed.

Lemma scan_tag_single (ms : option (list (Dict other))) (m : jsstring)
    (es : list (MessageElem other)) (b : jsstring) :
  scan_tag ms m [] [] = Returned (es, b) -> exists e, es = [e].
Proof.
  unfold scan_tag. destruct (split 44 _) as [|type attrs]; [done|].
  destruct (normalize_tag ms type attrs) as [[ty ats]| |]; [|done|done].
  cbn. destruct (mapM attr_entry ats); [|done|done].
  cbn. intros [= <- _]. eauto.
Qed.

Lemma first_match_None_here (s : jsstring) :
  first_match s = None -> match_here scanner_regex s = None.
Proof.
  destruct s; cbn [first_match]; by destruct (match_here scanner_regex _).
Qed.

(** A text between [<] and [>], not empty and without [>], is a bracket
    tag for the scanner. *)
Lemma bracket_match_tag (inner : jsstring) :
  inner <> [] -> 62%N ∉ inner -> bracket_match (js "<" ++ inner ++ js ">").
Proof.
  intros Hne Hin. split; [done|]. intros r.
  change ((js "<" ++ inner ++ js ">") ++ r) with (60%N :: (inner ++ [62%N]) ++ r).
  rewrite <- app_assoc.
  unfold scanner_regex, match_here, match_alt. simpl.
  rewrite run_until_app by done. by destruct inner.
Qed.

(** One round of the loop consumes a prefix of the template, cut into
    one or two tokens, and appends their outputs in that order. *)
Lemma scan_step_tokens (ms : option (list (Dict other)))
    (st st1 : scan_state other) (m : jsstring) :
  first_match (template st) = Some m ->
  scan_step ms m st = Returned st1 ->
  exists tokens outs,
    template st = concat tokens ++ template st1 /\
    result st1 = result st ++ outs.*1 /\
    brief st1 = brief st ++ concat outs.*2 /\
    Forall2 (token_output ms) tokens outs.
Proof.
  intros Hm Hs.
  destruct (scan_step_eq ms st m Hm)
    as (pre & post & Ht & Hne & Hst & Hpre & E).
  rewrite E in Hs. clear E.
  assert (exists o, token_output ms m o /\
            forall r b, (if startsWith m (js "<")
                         then '(result, brief) ← scan_tag ms m r b;
                              mret (ScanState post result brief)
                         else mret (ScanState post (r ++ [text_elem m]) (b ++ m)))
                        = Returned st1 ->
                        st1 = ScanState post (r ++ [o.1]) (b ++ o.2))
    as (o & Ho & Hst1).
  { destruct (startsWith m (js "<")) eqn:Hsw.
    - assert (exists es b', scan_tag ms m [] [] = Returned (es, b')) as (es & b' & Hes).
      { destruct pre; cbv zeta beta iota in Hs; rewrite scan_tag_acc in Hs;
          destruct (scan_tag ms m [] []) as [[es b']| |]; try done; eauto. }
      destruct (scan_tag_single _ _ _ _ Hes) as [e ->].
      exists (e, b'). split; [split; [done | by right]|].
      intros r b. rewrite scan_tag_acc, Hes. cbn. by intros [= <-].
    - exists (text_elem m, m). split.
      + split; [done|]. left. split; [|done]. intros [Hsw' _]. congruence.
      + intros r b. cbn. by intros [= <-]. }
  destruct pre as [|c pre]; cbv zeta beta iota in Hs; apply Hst1 in Hs as ->.
  - exists [m], [o]. cbn. rewrite !app_nil_r. simpl in Ht.
    repeat split; try done.
    apply Forall2_cons; split; [exact Ho | constructor].
  - exists [c :: pre; m], [(text_elem (c :: pre), c :: pre); o]. cbn.
    rewrite !app_nil_r, <- !app_assoc. simpl in Ht.
    repeat split; try done.
    apply Forall2_cons; split.
    + split; [done|]. left. split; [|done]. intros [_ Hb].
      destruct Hpre as [?|Hpre]; [done|]. by rewrite Hb in Hpre.
    + apply Forall2_cons; split; [exact Ho | constructor].
Qed.

(** The loop cuts a prefix of the template into tokens; it appends
    their outputs in the order of the tokens and leaves a rest without
    any match. *)
Lemma scan_loop_tokens (fuel : nat) (ms : option (list (Dict other)))
    (st st' : scan_state other) :
  scan_loop fuel ms st = Returned st' ->
  exists tokens outs,
    template st = concat tokens ++ template st' /\
    result st' = result st ++ outs.*1 /\
    brief st' = brief st ++ concat outs.*2 /\
    Forall2 (token_output ms) tokens outs /\
    first_match (template st') = None.
Proof.
  assert (forall st0, first_match (template st0) = None ->
            Returned st0 = Returned st' ->
            exists tokens outs,
              template st0 = concat tokens ++ template st' /\
              result st' = result st0 ++ outs.*1 /\
              brief st' = brief st0 ++ concat outs.*2 /\
              Forall2 (token_output ms) tokens outs /\
              first_match (template st') = None) as Hstop.
  { intros st0 Hn [= <-]. exists [], []. cbn. rewrite !app_nil_r.
    repeat split; first [done | constructor]. }
  revert st; induction fuel as [|fuel IH]; intros st;
    rewrite scan_loop_unfold.
  all: destruct (first_match (template st)) as [[|x m]|] eqn:Em.
  all: destruct (template st) as [|c t] eqn:Et.
  all: try (by destruct (first_match_inv _ _ Em) as (? & ? & _ & ? & _)).
  all: try (rewrite <- Et; apply Hstop; by rewrite Et).
  all: try done.
  rewrite <- Et in *.
  destruct (scan_step ms (x :: m) st) as [st1| |] eqn:Es; [|done|done].
    cbn. intros Hl.
    apply IH in Hl as (toks2 & outs2 & Ht2 & Hr2 & Hb2 & H2 & Hn).
    destruct (scan_step_tokens _ _ _ _ Em Es) as (toks1 & outs1 & Ht1 & Hr1 & Hb1 & H1).
    exists (toks1 ++ toks2), (outs1 ++ outs2).
    rewrite concat_app, !fmap_app, concat_app, <- !app_assoc.
    rewrite Hr2, Hr1, Hb2, Hb1, <- !app_assoc, <- Ht2, <- Ht1.
    repeat split; try done. by apply Forall2_app.
Qed.

(** What [Message.parse] returns: the outputs of the tokens of the
    content, in the order of the tokens, then the outputs of the
    attachments, in the order of the array. *)
Lemma parse_value_tokens (p : Payload other)
    (segs : list (MessageElem other)) (b : jsstring) :
  parse_value p = Returned (segs, b) ->
  exists (tokens : list jsstring)
         (scanned attached : list (MessageElem other * jsstring)),
    concat tokens = content_text p /\
    Forall2 (token_output (mentions p)) tokens scanned /\
    Forall2 attachment_output (default [] (attachments p)) attached /\
    segs = scanned.*1 ++ attached.*1 /\
    b = concat scanned.*2 ++ concat attached.*2.
Proof.
  intros E. unfold parse_value, scan in E.
  destruct (scan_loop _ _ _) as [st| |] eqn:El; try done.
  apply scan_loop_tokens in El as (toks & outs & Ht & Hr & Hb & Hout & Hn).
  cbn in Ht, Hr, Hb, E.
  assert (exists toks' outs',
            concat toks' = content_text p /\
            Forall2 (token_output (mentions p)) toks' outs' /\
            match attachments p with
            | Some atts => for_of atts (outs'.*1, concat outs'.*2)
            | None => mret (outs'.*1, concat outs'.*2)
            end = Returned (segs, b)) as (toks' & outs' & Hc & Hf & Hatt).
  { destruct (template st) as [|c t] eqn:Et; cbn in E.
    - exists toks, outs. rewrite Ht, app_nil_r, <- Hr, <- Hb. done.
    - exists (toks ++ [c :: t]), (outs ++ [(text_elem (c :: t), c :: t)]).
      rewrite concat_app, !fmap_app, concat_app. cbn. rewrite !app_nil_r.
      rewrite <- Hr, <- Hb, <- Ht. split; [done|]. split; [|done].
      apply Forall2_app; [done|].
      apply Forall2_cons; split; [|constructor].
      split; [done|]. left. split; [|done]. intros [_ Hbm].
      apply first_match_None_here in Hn.
      specialize (Hbm []). rewrite app_nil_r in Hbm. by rewrite Hbm in Hn. }
  exists toks', outs'.
  destruct (attachments p) as [atts|]; cbn.
  - apply for_of_Returned in Hatt as (out & [= -> ->] & Hout').
    by exists out.
  - injection Hatt as <- <-. exists []. cbn. rewrite !app_nil_r.
    repeat split; first [done | constructor].
Qed.

(** C6. The elements [Message.parse] returns are the outputs of the
    tokens of the content, in the order in which the tokens follow each
    other in the content, and then one element for each attachment, in the
    order of the array; the brief follows the same order. *)
Theorem parse_segment_order (p : Payload other)
    (segs : list (MessageElem other)) (b : jsstring) :
  (parse p).1 = Returned (segs, b) ->
  exists (tokens : list jsstring)
         (scanned attached : list (MessageElem other * jsstring)),
    concat tokens = content_text p /\
    Forall2 (token_output (mentions p)) tokens scanned /\
    Forall2 attachment_output (default [] (attachments p)) attached /\
    segs = scanned.*1 ++ attached.*1 /\
    b = concat scanned.*2 ++ concat attached.*2.
Proof.
  unfold parse. destruct (parse_value p) as [r| |] eqn:E; try done.
  cbn. intros [= ->]. by apply parse_value_tokens.
Qed.


(** ** Bracket tags *)

Lemma spread_base (base : MessageElem other) (o : Dict other) :
  spread base o = spread ∅ o ∪ base.
Proof.
  revert base; induction o as [|[k v] o IH]; intros base.
  - simpl. by rewrite (left_id_L ∅ (∪)).
  - change (spread base ((k, v) :: o)) with (spread (<[k:=v]> base) o).
    change (spread ∅ ((k, v) :: o)) with (spread (<[k:=v]> ∅) o).
    rewrite (IH (<[k:=v]> base)), (IH (<[k:=v]> ∅)).
    rewrite <- (assoc_L (∪)). f_equal.
    by rewrite insert_empty, <- insert_union_singleton_l.
Qed.

(** [{type, ...Object.fromEntries(pairs)}] is [{type}] extended pair by
    pair. *)
Lemma with_type_fromEntries (type : jsstring) (pairs : Dict other) :
  with_type type (Object_fromEntries pairs) =
    spread {[ js "type" := VStr type ]} pairs.
Proof. unfold with_type, Object_fromEntries. by rewrite <- spread_base. Qed.

Lemma spread_fmap {A : Type} (f : A -> jsstring * value other)
    (base : MessageElem other) (l : list A) :
  spread base (f <$> l) = foldl (fun m x => <[(f x).1 := (f x).2]> m) base l.
Proof. revert base; induction l as [|x l IH]; intros base; [done|]. apply IH. Qed.

Lemma attr_text_AttrStr (l : list jsstring) :
  map attr_text (map (@AttrStr other) l) = l.
Proof. induction l as [|x l IH]; [done|]. simpl. by rewrite IH. Qed.






(** ** The accumulators

    [result] and [brief] are only appended to: a run from any state is the
    run from empty accumulators, appended to what was there. *)

Lemma scan_step_acc (ms : option (list (Dict other))) (m : jsstring)
    (st : scan_state other) :
  scan_step ms m st =
    st1 ← scan_step ms m (ScanState (template st) [] []);
    mret (ScanState (template st1) (result st ++ result st1)
                    (brief st ++ brief st1)).
Proof.
  unfold scan_step. cbn [template result brief].
  destruct (slice (template st) 0 _) as [|c pre]; cbv zeta beta iota.
  all: destruct (startsWith m (js "<")).
  all: rewrite ?(scan_tag_acc ms m (result st ++ _)),
         ?(scan_tag_acc ms m (result st)), ?(scan_tag_acc ms m ([] ++ _)).
  all: try (destruct (scan_tag ms m [] []) as [[es b']| |]; [|done|done]).
  all: cbn; by rewrite ?app_nil_r, <- ?app_assoc.
Qed.

Lemma scan_loop_acc (fuel : nat) (ms : option (list (Dict other)))
    (st : scan_state other) :
  scan_loop fuel ms st =
    st' ← scan_loop fuel ms (ScanState (template st) [] []);
    mret (ScanState (template st') (result st ++ result st')
                    (brief st ++ brief st')).
Proof.
  revert st; induction fuel as [|fuel IH]; intros st.
  all: rewrite (scan_loop_unfold _ ms st),
         (scan_loop_unfold _ ms (ScanState (template st) [] [])).
  all: cbn [template].
  all: destruct (template st) as [|c t] eqn:Et;
         [destruct st; cbn in *; subst; by rewrite !app_nil_r|].
  all: destruct (first_match (c :: t)) as [[|x m]|];
         try (destruct st; cbn in *; subst; by rewrite !app_nil_r).
  - done.
  - rewrite scan_step_acc, Et.
    destruct (scan_step ms (x :: m) (ScanState (c :: t) [] [])) as [st1| |];
      [|done|done].
    cbn. rewrite IH, (IH st1). cbn [template].
    destruct (scan_loop fuel ms _) as [st2| |]; [|done|done].
    cbn. by rewrite !app_assoc.
Qed.

(** More fuel than the length of the template changes nothing. *)
Lemma scan_loop_more_fuel (fuel fuel' : nat) (ms : option (list (Dict other)))
    (st : scan_state other) :
  (length (template st) <= fuel)%nat ->
  (length (template st) <= fuel')%nat ->
  scan_loop fuel ms st = scan_loop fuel' ms st.
Proof.
  revert fuel' st; induction fuel as [|fuel IH]; intros fuel' st H1 H2.
  all: rewrite (scan_loop_unfold _ ms st), (scan_loop_unfold fuel' ms st).
  all: destruct (template st) as [|c t] eqn:Et; [done|].
  all: destruct (first_match (c :: t)) as [[|x m]|] eqn:Em; try done.
  - simpl in H1. lia.
  - destruct fuel' as [|fuel']; [simpl in H2; lia|].
    rewrite <- Et in Em.
    destruct (scan_step ms (x :: m) st) as [st1| |] eqn:Es; [|done|done].
    pose proof (scan_step_shortens _ _ _ _ Em Es) as Hs.
    rewrite Et in Hs. simpl in Hs, H1, H2.
    cbn. apply IH; lia.
Qed.

Lemma for_of_acc (atts : list (Dict other))
    (acc : list (MessageElem other) * jsstring) :
  for_of atts acc =
    '(es, b) ← for_of atts ([], []); mret (acc.1 ++ es, acc.2 ++ b).
Proof.
  revert acc; induction atts as [|a atts IH]; intros acc.
  - cbn. rewrite !app_nil_r. by destruct acc.
  - cbn [for_of]. rewrite push_attachment_acc.
    destruct (push_attachment ([], []) a) as [[es b]| |]; [|done|done].
    cbn. rewrite (IH (acc.1 ++ es, acc.2 ++ b)), (IH (es, b)).
    destruct (for_of atts ([], [])) as [[es' b']| |]; [|done|done].
    cbn. by rewrite !app_assoc.
Qed.

Lemma parse_fst (p : Payload other) : (parse p).1 = parse_value p.
Proof. unfold parse. by destruct (parse_value p). Qed.

(** A content that begins with a bracket tag: the output of the tag,
    then what the rest of the content gives. *)
Lemma parse_value_tag (p p' : Payload other) (inner rest : jsstring) :
  content p = Some (js "<" ++ inner ++ js ">" ++ rest) ->
  inner <> [] -> 62%N ∉ inner ->
  content p' = Some rest ->
  mentions p' = mentions p ->
  attachments p' = attachments p ->
  parse_value p =
    '(es, b1) ← scan_tag (mentions p) (js "<" ++ inner ++ js ">") [] [];
    '(segs, b) ← parse_value p';
    mret (es ++ segs, b1 ++ b).
Proof.
  intros Hc Hne Hin Hc' Hm Ha. unfold parse_value, scan.
  rewrite (content_text_Some _ _ Hc), (content_text_Some _ _ Hc'), Hm, Ha.
  rewrite (scan_loop_tag _ _ _ inner rest) by done. cbn [result brief].
  destruct (scan_tag _ _ [] []) as [[es b1]| |]; [|done|done]. cbn.
  rewrite scan_loop_acc. cbn [template result brief].
  rewrite (scan_loop_more_fuel _ (length rest))
    by (cbn [template]; rewrite ?length_app; simpl; lia).
  destruct (scan_loop (length rest) _ _) as [st| |]; [|done|done]. cbn.
  assert (forall acc : list (MessageElem other) * jsstring,
            match attachments p with
            | Some atts => for_of atts acc
            | None => mret acc
            end =
            '(es', b') ← match attachments p with
                         | Some atts => for_of atts ([], [])
                         | None => mret ([], [])
                         end; mret (acc.1 ++ es', acc.2 ++ b')) as Hatt.
  { intros acc. destruct (attachments p); [apply for_of_acc|].
    cbn. rewrite !app_nil_r. by destruct acc. }
  destruct (template st) as [|c t]; cbn.
  all: rewrite Hatt; symmetry; rewrite Hatt; cbn.
  all: destruct (match attachments p with Some _ => _ | None => _ end)
         as [[es' b']| |]; [|done|done].
  all: cbn; by rewrite <- ?app_assoc.
Qed.


(** ** The round trip through the brief *)

Lemma join_not_elem (c : N) (sep : jsstring) (parts : list jsstring) :
  c ∉ sep -> Forall (fun w => c ∉ w) parts -> c ∉ join sep parts.
Proof.
  intros Hsep. induction 1 as [|w ws Hw Hws IH]; [apply not_elem_of_nil|].
  destruct ws as [|v vs]; [done|].
  change (join sep (w :: v :: vs)) with (w ++ sep ++ join sep (v :: vs)).
  rewrite !not_elem_of_app. done.
Qed.

Lemma drop_elem (c : N) (n : nat) (s : jsstring) : c ∈ drop n s -> c ∈ s.
Proof.
  revert n; induction s as [|d s IH]; intros [|n] H; simpl in H; try done.
  right. by apply (IH n).
Qed.

Lemma replace_not_elem (c : N) (s p r : jsstring) :
  c ∉ s -> c ∉ r -> c ∉ replace s p r.
Proof.
  intros Hs Hr. induction s as [|d s IH]; simpl.
  - destruct (startsWith [] p); [|apply not_elem_of_nil].
    rewrite not_elem_of_app. split; [done|]. intros H%drop_elem. done.
  - destruct (startsWith (d :: s) p).
    + rewrite not_elem_of_app. split; [done|]. intros H%drop_elem. done.
    + apply not_elem_of_cons in Hs as [Hd Hs].
      apply not_elem_of_cons. split; [done | by apply IH].
Qed.

Lemma mapM_attr_entry_returns (l : list jsstring) :
  exists entries, mapM attr_entry (map AttrStr l) = Returned entries.
Proof.
  induction l as [|x l [entries IH]]; [by eexists|].
  rewrite map_cons, mapM_cons, IH. unfold attr_entry.
  destruct (split 61 x) as [|key values] eqn:E;
    [by destruct (split_nonempty 61 x)|].
  by eexists.
Qed.

(** With at least one attribute the brief of a tag is a bracket tag. *)
Lemma tag_brief_bracket (type : jsstring) (attrs : list jsstring) :
  attrs <> [] -> tag_brief type (map AttrStr attrs) = bracket_tag type attrs.
Proof.
  intros Hne. unfold tag_brief, bracket_tag. rewrite attr_text_AttrStr.
  destruct attrs as [|a attrs]; [done|].
  change (join (js ",") (type :: a :: attrs))
    with (type ++ js "," ++ join (js ",") (a :: attrs)).
  by rewrite <- !app_assoc.
Qed.

Lemma scan_tag_bracket (ms : option (list (Dict other))) (type : jsstring)
    (attrs : list jsstring) :
  Forall (fun w => 44%N ∉ w) (type :: attrs) ->
  scan_tag ms (bracket_tag type attrs) [] [] =
    '(type', attrs') ← normalize_tag ms type attrs;
    entries ← mapM attr_entry attrs';
    mret ([with_type type' (Object_fromEntries entries)],
          tag_brief type' attrs').
Proof.
  intros H. unfold bracket_tag. rewrite scan_tag_inner.
  change (js ",") with [44%N]. by rewrite split_join.
Qed.

Lemma faceType_not_shorthand (type : jsstring) :
  startsWith type (js "faceType") = true -> shorthand_test type = false.
Proof. intros [r ->]%startsWith_spec. reflexivity. Qed.

Lemma at_not_shorthand (type : jsstring) :
  startsWith type (js "@") = true -> shorthand_test type = false.
Proof. intros [r ->]%startsWith_spec. reflexivity. Qed.

(** The type and the attributes of a plain tag after lines 199-215: at
    least one attribute, all of them strings, and a tag that the same
    lines leave as it is. *)
Lemma normalize_tag_plain (ms : option (list (Dict other))) (type : jsstring)
    (attrs : list jsstring) :
  plain_tag (type, attrs) ->
  exists type' attrs',
    normalize_tag ms type attrs = Returned (type', map AttrStr attrs') /\
    attrs' <> [] /\
    Forall (fun w => (44%N ∉ w) /\ (62%N ∉ w)) (type' :: attrs') /\
    forall ms', normalize_tag ms' type' attrs' =
                Returned (type', map AttrStr attrs').
Proof.
  intros (Hch & Hne & Hm & He). cbn [fst snd] in *.
  apply Forall_cons in Hch as [Hty Hch].
  unfold normalize_tag.
  destruct (startsWith type (js "faceType")) eqn:Hf.
  { exists (js "face"), (map (fun a => replace a (js "faceId") (js "id")) attrs).
    rewrite map_map. split; [done|].
    destruct Hne as [Hne|Hs];
      [|by rewrite (faceType_not_shorthand _ Hf) in Hs].
    split; [by destruct attrs|].
    split; [|done].
    apply Forall_cons. split; [split; decide_literal|].
    apply Forall_fmap. eapply Forall_impl; [exact Hch|].
    intros w [H1 H2]. simpl.
    split; apply replace_not_elem; first [done | decide_literal]. }
  destruct (startsWith type (js "@")) eqn:Ha.
  { rewrite Hm. unfold str_eqb. rewrite bool_decide_eq_false_2 by done.
    exists type, attrs. split; [done|].
    destruct Hne as [Hne|Hs]; [|by rewrite (at_not_shorthand _ Ha) in Hs].
    split; [done|]. split; [by apply Forall_cons|].
    intros ms'. rewrite Hf, Ha, Hm. by rewrite bool_decide_eq_false_2. }
  destruct (shorthand_test type) eqn:Hs.
  { eexists (js "face"), [_]. split; [reflexivity|]. split; [done|].
    split; [|done].
    apply Forall_cons. split; [split; decide_literal|].
    apply Forall_cons. split; [|constructor].
    change (js "id=" ++ ?d) with (105%N :: 100%N :: 61%N :: d).
    destruct (split 58 type !! 1%nat) as [d|] eqn:E.
    - apply list_elem_of_lookup_2 in E.
      rewrite !not_elem_of_cons.
      repeat split; try done; intros Hd; [apply (proj1 Hty)|apply (proj2 Hty)];
        by apply (split_elem 58 _ type d).
    - split; decide_literal. }
  exists type, attrs. split; [done|].
  destruct Hne as [Hne|Hs']; [|congruence].
  split; [done|]. split; [by apply Forall_cons|].
  intros ms'. by rewrite Hf, Ha, Hs.
Qed.

(** One plain tag: its element and its brief, and the same element and
    brief again when the brief is scanned. *)
Lemma scan_tag_plain (ms : option (list (Dict other))) (type : jsstring)
    (attrs : list jsstring) :
  plain_tag (type, attrs) ->
  exists (e : MessageElem other) type' attrs',
    attrs' <> [] /\
    Forall (fun w => (44%N ∉ w) /\ (62%N ∉ w)) (type' :: attrs') /\
    scan_tag ms (bracket_tag type attrs) [] [] =
      Returned ([e], bracket_tag type' attrs') /\
    forall ms', scan_tag ms' (bracket_tag type' attrs') [] [] =
                Returned ([e], bracket_tag type' attrs').
Proof.
  intros Hp.
  destruct (normalize_tag_plain ms type attrs Hp)
    as (type' & attrs' & Hn & Hne & Hch & Hn').
  destruct (mapM_attr_entry_returns attrs') as [entries He].
  exists (with_type type' (Object_fromEntries entries)), type', attrs'.
  split; [done|]. split; [done|].
  destruct Hp as (Hch0 & _).
  split; [|intros ms'].
  all: rewrite scan_tag_bracket
         by (eapply Forall_impl; [eassumption | by intros w [H _]]).
  all: rewrite ?Hn, ?Hn'; cbn; rewrite He; cbn.
  all: by rewrite tag_brief_bracket.
Qed.

Lemma bracket_inner (type : jsstring) (attrs : list jsstring) :
  (attrs <> [] \/ type <> []) ->
  Forall (fun w => (44%N ∉ w) /\ (62%N ∉ w)) (type :: attrs) ->
  join (js ",") (type :: attrs) <> [] /\ 62%N ∉ join (js ",") (type :: attrs).
Proof.
  intros Hne Hch. split.
  - destruct attrs as [|a attrs].
    + simpl. by destruct Hne.
    + change (join (js ",") (type :: a :: attrs))
        with (type ++ js "," ++ join (js ",") (a :: attrs)).
      by destruct type.
  - apply join_not_elem; [decide_literal|].
    eapply Forall_impl; [exact Hch | by intros w [_ H]].
Qed.

(** A content made of bracket tags only, without attachments. *)
Lemma parse_value_tags (ms : option (list (Dict other)))
    (inners : list jsstring) (outs : list (MessageElem other * jsstring))
    (p : Payload other) :
  Forall2 (fun i o =>
             i <> [] /\ (62%N ∉ i) /\
             scan_tag ms (js "<" ++ i ++ js ">") [] [] = Returned ([o.1], o.2))
          inners outs ->
  mentions p = ms ->
  content p = Some (concat (map (fun i => js "<" ++ i ++ js ">") inners)) ->
  attachments p = None \/ attachments p = Some [] ->
  parse_value p = Returned (outs.*1, concat outs.*2).
Proof.
  intros H. revert p.
  induction H as [|i [e b] inners outs (Hne & Hin & Hs) _ IH];
    intros p Hm Hc Ha.
  - by rewrite (parse_value_no_match p [] Hc eq_refl Ha).
  - set (rest := concat (map (fun i => js "<" ++ i ++ js ">") inners)).
    set (p' := {| content := Some rest; attachments := attachments p;
                  mentions := mentions p; fields := fields p |}).
    rewrite (parse_value_tag p p' i rest); try done.
    + rewrite Hm, Hs, (IH p') by done. reflexivity.
    + rewrite Hc. simpl. by rewrite <- !app_assoc.
Qed.

(** C5 (amended). A content made of plain bracket tags only, in a payload
    without attachments: parsing the brief again returns the same elements
    and the same brief. A plain tag has at least one attribute (or is a
    shorthand face code, which is given one) and is no mention tag. *)
Theorem parse_brief_roundtrip (p : Payload other)
    (tags : list (jsstring * list jsstring)) :
  content p = Some (concat (map (fun t => bracket_tag t.1 t.2) tags)) ->
  attachments p = None \/ attachments p = Some [] ->
  Forall plain_tag tags ->
  exists segs b,
    (parse p).1 = Returned (segs, b) /\
    forall p2 : Payload other,
      content p2 = Some b ->
      attachments p2 = None \/ attachments p2 = Some [] ->
      (parse p2).1 = Returned (segs, b).
Proof.
  intros Hc Ha Htags.
  assert (exists (outs : list (MessageElem other * jsstring))
                 (tags' : list (jsstring * list jsstring)),
            Forall2 (fun t o =>
                       join (js ",") (t.1 :: t.2) <> [] /\
                       (62%N ∉ join (js ",") (t.1 :: t.2)) /\
                       scan_tag (mentions p) (bracket_tag t.1 t.2) [] [] =
                         Returned ([o.1], o.2)) tags outs /\
            (forall ms',
               Forall2 (fun t o =>
                          join (js ",") (t.1 :: t.2) <> [] /\
                          (62%N ∉ join (js ",") (t.1 :: t.2)) /\
                          scan_tag ms' (bracket_tag t.1 t.2) [] [] =
                            Returned ([o.1], o.2)) tags' outs) /\
            outs.*2 = map (fun t => bracket_tag t.1 t.2) tags')
    as (outs & tags' & H1 & H2 & Hb).
  { clear Hc. induction Htags as [|[type attrs] tags Ht _ IH].
    - exists [], []. repeat split; constructor.
    - destruct IH as (outs & tags' & H1 & H2 & Hb).
      destruct (scan_tag_plain (mentions p) type attrs Ht)
        as (e & type' & attrs' & Hne' & Hch' & Hs & Hs').
      exists ((e, bracket_tag type' attrs') :: outs), ((type', attrs') :: tags').
      destruct Ht as (Hch & Hne & _). cbn [fst snd] in *.
      assert (attrs <> [] \/ type <> []) as Hne0.
      { destruct Hne as [?|Hsh]; [by left|right]. by intros ->. }
      split; [|split].
      + apply Forall2_cons. split; [|done].
        destruct (bracket_inner type attrs Hne0 Hch). done.
      + intros ms'. apply Forall2_cons. split; [|done].
        destruct (bracket_inner type' attrs' (or_introl Hne') Hch'). done.
      + rewrite fmap_cons, map_cons. by rewrite Hb. }
  exists outs.*1, (concat outs.*2). rewrite parse_fst. split.
  - apply (parse_value_tags (mentions p)
             (map (fun t => join (js ",") (t.1 :: t.2)) tags)); try done.
    + by apply Forall2_fmap_l.
    + by rewrite map_map.
  - intros p2 Hc2 Ha2. rewrite parse_fst.
    apply (parse_value_tags (mentions p2)
             (map (fun t => join (js ",") (t.1 :: t.2)) tags')); try done.
    + apply Forall2_fmap_l. apply H2.
    + by rewrite Hc2, Hb, map_map.
Qed.

(** ** Further properties of the regular expression *)

Lemma match_alt_shape (a : alternative) (s m : jsstring) :
  match_alt a s = Some m ->
  exists w r,
    s = alt_open a :: w ++ alt_close a :: r /\
    m = alt_open a :: w ++ [alt_close a] /\
    (alt_close a ∉ w) /\ (alt_min a <= length w)%nat.
Proof.
  unfold match_alt. destruct s as [|c s]; [done|].
  destruct (N.eqb_spec c (alt_open a)) as [->|]; [|done].
  destruct (run_until (alt_close a) s) as [w|] eqn:E; [|done].
  destruct (Nat.leb_spec (alt_min a) (length w)); [|done].
  intros [= <-]. apply run_until_Some in E as (r & -> & Hw).
  by exists w, r.
Qed.

Lemma match_alt_span (a : alternative) (w r : jsstring) :
  alt_close a ∉ w -> (alt_min a <= length w)%nat ->
  match_alt a (alt_open a :: w ++ alt_close a :: r) =
    Some (alt_open a :: w ++ [alt_close a]).
Proof.
  intros Hw Hmin. unfold match_alt.
  rewrite N.eqb_refl, run_until_app by done.
  by destruct (Nat.leb_spec (alt_min a) (length w)); [|lia].
Qed.

Lemma match_here_shape (alts : list alternative) (s m : jsstring) :
  match_here alts s = Some m ->
  exists a w r,
    a ∈ alts /\
    s = alt_open a :: w ++ alt_close a :: r /\
    m = alt_open a :: w ++ [alt_close a] /\
    (alt_close a ∉ w) /\ (alt_min a <= length w)%nat.
Proof.
  induction alts as [|a alts IH]; [done|]. simpl.
  destruct (match_alt a s) as [m'|] eqn:E.
  - intros [= <-]. apply match_alt_shape in E as (w & r & ? & ? & ? & ?).
    exists a, w, r. split; [left | done].
  - intros H. apply IH in H as (a' & w & r & ? & ?).
    exists a', w, r. split; [by right | done].
Qed.

Lemma match_here_some (alts : list alternative) (a : alternative)
    (s m : jsstring) :
  a ∈ alts -> match_alt a s = Some m -> is_Some (match_here alts s).
Proof.
  induction alts as [|a' alts IH]; intros Hin Hm; [by apply elem_of_nil in Hin|].
  simpl. destruct (match_alt a' s) eqn:E; [by eexists|].
  apply elem_of_cons in Hin as [->|Hin]; [congruence | by apply IH].
Qed.

(** X1. A match of the scanner is a span of one of the six kinds: the
    opening code unit, code units other than the closing one (at least one
    inside a bracket tag), the closing code unit. It is the leftmost one:
    no span starts at an earlier position of the template. *)
Theorem first_match_leftmost_span (s m : jsstring) :
  first_match s = Some m ->
  exists pre post a w,
    s = pre ++ m ++ post /\
    a ∈ scanner_regex /\
    m = alt_open a :: w ++ [alt_close a] /\
    (alt_close a ∉ w) /\ (alt_min a <= length w)%nat /\
    forall k, (k < length pre)%nat ->
              match_here scanner_regex (drop k s) = None.
Proof.
  induction s as [|c s IH]; intros H; [done|].
  cbn [first_match] in H.
  destruct (match_here scanner_regex (c :: s)) as [m0|] eqn:E.
  - injection H as ->.
    destruct (match_here_shape _ _ _ E) as (a & w & r & Ha & Hs & -> & Hw & Hmin).
    exists [], r, a, w. rewrite Hs. simpl. rewrite <- app_assoc.
    repeat split; try done. intros k Hk. simpl in Hk. lia.
  - destruct (IH H) as (pre & post & a & w & -> & Ha & -> & Hw & Hmin & Hleft).
    exists (c :: pre), post, a, w. repeat split; try done.
    intros [|k] Hk; [exact E|]. simpl in Hk. simpl. apply Hleft. lia.
Qed.

(** X2. A template that holds a span of one of the six kinds has a match:
    the scanner misses no quoted span and no bracket tag. *)
Theorem first_match_complete (a : alternative) (pre w post : jsstring) :
  a ∈ scanner_regex ->
  alt_close a ∉ w ->
  (alt_min a <= length w)%nat ->
  is_Some (first_match (pre ++ alt_open a :: w ++ alt_close a :: post)).
Proof.
  intros Ha Hw Hmin. induction pre as [|c pre IH].
  - simpl app. cbn [first_match].
    destruct (match_here_some scanner_regex a _ _ Ha
                (match_alt_span a w post Hw Hmin)) as [m ->]. by eexists.
  - simpl app. cbn [first_match].
    destruct (match_here scanner_regex _); [by eexists | exact IH].
Qed.

(** ** Termination and exceptions *)

(** X3. The loop terminates: a round that returns has consumed the match
    (and the text before it), so the template gets strictly shorter; and
    [Message.parse] either returns or throws a TypeError, on every
    payload. *)
Theorem parse_terminates :
  (forall (ms : option (list (Dict other))) (m : jsstring)
          (st st1 : scan_state other),
     first_match (template st) = Some m ->
     scan_step ms m st = Returned st1 ->
     (0 < length m /\
      length (template st1) + length m <= length (template st))%nat) /\
  (forall p : Payload other,
     (exists r, (parse p).1 = Returned r) \/ (parse p).1 = Thrown TypeError).
Proof.
  split.
  - intros ms m st st1 Hm Hs.
    destruct (scan_step_eq ms st m Hm) as (pre & post & Ht & Hne & _ & _ & E).
    rewrite E in Hs. clear E.
    assert (template st1 = post) as ->.
    { destruct (startsWith m (js "<")); destruct pre; cbv zeta beta iota in Hs.
      1,2: destruct (scan_tag _ _ _ _) as [[r b]| |]; try discriminate.
      all: by injection Hs as <-. }
    rewrite Ht, !length_app. split; [|lia]. destruct m; [done | simpl; lia].
  - intros p. pose proof (parse_enough_fuel p) as H.
    destruct (parse p).1 as [r|[]|]; [left; by exists r | by right | done].
Qed.

Lemma startsWith_at_bang (type : jsstring) :
  startsWith type (js "@!") = true -> startsWith type (js "@") = true.
Proof. intros [r ->]%startsWith_spec. reflexivity. Qed.

(** The two ways in which a bracket tag throws. *)
Lemma scan_tag_outcome (ms : option (list (Dict other)))
    (inner type : jsstring) (attrs : list jsstring)
    (r : list (MessageElem other)) (b : jsstring) :
  split 44 inner = type :: attrs ->
  (((startsWith type (js "@!") = true /\ ms = None) \/ type = js "@everyone") /\
   scan_tag ms (js "<" ++ inner ++ js ">") r b = Thrown TypeError) \/
  (~ ((startsWith type (js "@!") = true /\ ms = None) \/ type = js "@everyone") /\
   exists e b', scan_tag ms (js "<" ++ inner ++ js ">") r b =
                  Returned (r ++ [e], b ++ b')).
Proof.
  intros Hsp. rewrite scan_tag_inner, Hsp. unfold normalize_tag.
  assert (forall (ty : jsstring) (l : list jsstring),
            exists e b',
              (entries ← mapM attr_entry (map AttrStr l);
               mret (r ++ [with_type ty (Object_fromEntries entries)],
                     b ++ tag_brief ty (map AttrStr l))) =
              Returned (r ++ [e], b ++ b')) as Hret.
  { intros ty l. destruct (mapM_attr_entry_returns l) as [entries ->].
    by eexists _, _. }
  destruct (startsWith type (js "faceType")) eqn:Hf.
  { right. split.
    - apply startsWith_spec in Hf as [x ->]. intros [[H _]|H]; discriminate.
    - rewrite <- (map_map (fun a => replace a (js "faceId") (js "id")) AttrStr).
      apply Hret. }
  destruct (startsWith type (js "@")) eqn:Ha.
  - destruct (startsWith type (js "@!")) eqn:Hb.
    + destruct ms as [ms|].
      * right. split.
        -- intros [[_ H]|H]; [done|]. by rewrite H in Hb.
        -- rewrite <- (map_map entry_token AttrStr). apply Hret.
      * left. split; [by left | done].
    + unfold str_eqb. case_bool_decide as He.
      * left. split; [by right | done].
      * right. split; [|apply Hret]. intros [[H _]|H]; done.
  - assert (~ ((startsWith type (js "@!") = true /\ ms = None) \/
               type = js "@everyone")) as Hno.
    { intros [[H _]|H].
      - apply startsWith_at_bang in H. congruence.
      - by rewrite H in Ha. }
    right. split; [done|].
    destruct (shorthand_test type); [|apply Hret].
    apply (Hret (js "face") [_]).
Qed.

(** X4. A bracket tag throws in two cases only, whatever its attributes:
    its type begins with [@!] while the payload has no [mentions], or its
    type is [@everyone]. Every other tag appends one element and its
    brief. *)
Theorem scan_tag_throws_iff (ms : option (list (Dict other)))
    (inner type : jsstring) (attrs : list jsstring)
    (r : list (MessageElem other)) (b : jsstring) :
  split 44 inner = type :: attrs ->
  (scan_tag ms (js "<" ++ inner ++ js ">") r b = Thrown TypeError <->
   (startsWith type (js "@!") = true /\ ms = None) \/ type = js "@everyone") /\
  (scan_tag ms (js "<" ++ inner ++ js ">") r b <> Thrown TypeError ->
   exists e b', scan_tag ms (js "<" ++ inner ++ js ">") r b =
                  Returned (r ++ [e], b ++ b')).
Proof.
  intros Hsp.
  destruct (scan_tag_outcome ms inner type attrs r b Hsp)
    as [[Hc Ht]|[Hc (e & b' & Hr)]].
  - split; [by split | by intros H].
  - split; [|by intros _; exists e, b'].
    split; [by rewrite Hr | by intros H].
Qed.

(** [s.indexOf(w)] is [-1] exactly when [w] does not occur in [s]. *)
Lemma indexOf_from_none (i : Z) (s w : jsstring) :
  0 <= i ->
  (indexOf_from i s w = -1 <-> forall a b, s <> a ++ w ++ b).
Proof.
  revert i; induction s as [|c s IH]; intros i Hi; cbn [indexOf_from].
  - destruct (startsWith [] w) eqn:E.
    + apply startsWith_spec in E as [r E]. split; [lia|].
      intros H. destruct (H [] r). done.
    + split; [|done]. intros _ a b H.
      assert (startsWith [] w = true); [|congruence].
      apply startsWith_spec. exists b.
      destruct a; [done | discriminate].
  - destruct (startsWith (c :: s) w) eqn:E.
    + apply startsWith_spec in E as [r E]. split; [lia|].
      intros H. destruct (H [] r). done.
    + rewrite IH by lia. split.
      * intros H [|x a] b Hs.
        -- assert (startsWith (c :: s) w = true); [|congruence].
           apply startsWith_spec. by exists b.
        -- injection Hs as -> ->. by destruct (H a b).
      * intros H a b ->. by destruct (H (c :: a) b).
Qed.

Lemma indexOf_none (s w : jsstring) :
  indexOf s w = -1 <-> forall a b, s <> a ++ w ++ b.
Proof. by apply indexOf_from_none. Qed.

(** A bracket tag found by the scanner is [<], a text without [>] that is
    not empty, and [>]. *)
Lemma first_match_bracket (s m : jsstring) :
  first_match s = Some m ->
  startsWith m (js "<") = true ->
  exists pre post w,
    s = pre ++ m ++ post /\ m = js "<" ++ w ++ js ">" /\
    w <> [] /\ 62%N ∉ w.
Proof.
  intros Hm Hsw.
  destruct (first_match_inv s m Hm) as (pre & post & Hs & _ & Hst & _).
  destruct (match_here_shape _ _ _ (Hst []))
    as (a & w & r & Ha & _ & -> & Hw & Hmin).
  exists pre, post, w. split; [done|].
  unfold scanner_regex in Ha.
  repeat (apply elem_of_cons in Ha as [->|Ha]); try done.
  - split; [done|]. split; [|done]. simpl in Hmin. destruct w; [simpl in *; lia | done].
  - by apply elem_of_nil in Ha.
Qed.

(** The loop returns when every bracket tag it meets returns. *)
Lemma scan_loop_returns (P : jsstring -> Prop)
    (ms : option (list (Dict other))) :
  (forall pre m post, P (pre ++ m ++ post) -> P post) ->
  (forall s m, P s -> first_match s = Some m ->
               startsWith m (js "<") = true ->
               exists out, scan_tag ms m [] [] = Returned out) ->
  forall fuel st,
    (length (template st) <= fuel)%nat ->
    P (template st) ->
    exists st', scan_loop fuel ms st = Returned st'.
Proof.
  intros Hsuffix Hsafe fuel.
  induction fuel as [|fuel IH]; intros st Hlen HP; rewrite scan_loop_unfold.
  - destruct (template st); [by eexists | simpl in Hlen; lia].
  - destruct (template st) as [|c t] eqn:Et; [by eexists|].
    destruct (first_match (c :: t)) as [[|x m]|] eqn:Em;
      [by eexists| |by eexists].
    rewrite <- Et in Em, HP.
    destruct (scan_step_eq ms st _ Em) as (pre & post & Ht & _ & _ & _ & E).
    assert (exists r b, scan_step ms (x :: m) st = Returned (ScanState post r b))
      as (r & b & Hs).
    { rewrite E. clear E.
      destruct (startsWith (x :: m) (js "<")) eqn:Hsw.
      - destruct (Hsafe _ _ HP Em Hsw) as [[es b'] Hout].
        destruct pre; cbv zeta beta iota; rewrite scan_tag_acc, Hout;
          by eexists _, _.
      - destruct pre; cbv zeta beta iota; by eexists _, _. }
    rewrite Hs. cbn. apply IH; cbn [template].
    + rewrite Et in Ht.
      assert (length (c :: t) = length (pre ++ (x :: m) ++ post)) as Hl
        by (by rewrite Ht).
      rewrite !length_app in Hl. simpl in Hl, Hlen. lia.
    + apply (Hsuffix pre (x :: m)). by rewrite <- Ht.
Qed.

(** The scanner returns when the loop does. *)
Lemma scan_returns (p : Payload other) :
  (exists st', scan_loop (length (content_text p)) (mentions p)
                 (ScanState (content_text p) [] []) = Returned st') ->
  exists acc, scan p = Returned acc.
Proof.
  intros [st' H]. unfold scan. rewrite H. cbn.
  destruct (template st'); by eexists.
Qed.

(** X5. [Message.parse] returns on every payload whose content holds
    neither the text [<@everyone] nor, when [mentions] is missing, the text
    [<@!], and whose attachments all have a string [content_type]. *)
Theorem parse_returns (p : Payload other) :
  indexOf (content_text p) (js "<@everyone") = -1 ->
  (mentions p = None -> indexOf (content_text p) (js "<@!") = -1) ->
  Forall (fun a => exists ct, obj_get a (js "content_type") = VStr ct)
         (default [] (attachments p)) ->
  exists r, (parse p).1 = Returned r.
Proof.
  intros He Hm Hatt. rewrite parse_fst. unfold parse_value.
  destruct (scan_returns p) as [acc ->].
  { apply (scan_loop_returns
             (fun s => (forall a b, s <> a ++ js "<@everyone" ++ b) /\
                       (mentions p = None ->
                        forall a b, s <> a ++ js "<@!" ++ b)));
      [| |done|].
    - intros pre m post [H1 H2]. split.
      + intros a b ->. destruct (H1 (pre ++ m ++ a) b).
        by rewrite <- !app_assoc.
      + intros Hn a b ->. destruct (H2 Hn (pre ++ m ++ a) b).
        by rewrite <- !app_assoc.
    - intros s m [H1 H2] Hfm Hsw.
      destruct (first_match_bracket s m Hfm Hsw)
        as (pre & post & w & -> & -> & Hne & Hw).
      destruct (split 44 w) as [|type attrs] eqn:Hsp;
        [by destruct (split_nonempty 44 w)|].
      destruct (scan_tag_outcome (mentions p) w type attrs [] [] Hsp)
        as [[Hc _]|[_ (e & b' & Hr)]]; [|by eexists].
      apply split_head in Hsp as [_ Hw'].
      assert (exists x, w = type ++ x) as [x ->]
        by (destruct Hw' as [->|[x ->]]; [exists [] | exists (44%N :: x)];
            by rewrite ?app_nil_r).
      destruct Hc as [[Hb Hn]| ->].
      + apply startsWith_spec in Hb as [y ->].
        destruct (H2 Hn pre (y ++ x ++ js ">" ++ post)).
        change (js "<@!") with (js "<" ++ js "@!").
        by rewrite <- !app_assoc.
      + destruct (H1 pre (x ++ js ">" ++ post)).
        change (js "<@everyone") with (js "<" ++ js "@everyone").
        by rewrite <- !app_assoc.
    - cbn [template]. split; [by apply indexOf_none|].
      intros Hn. apply indexOf_none. by apply Hm. }
  cbn. destruct (attachments p) as [atts|]; [|by eexists].
  apply for_of_all. exact Hatt.
Qed.

(** ** Composition: the head of the content and the rest *)

Lemma match_alt_other (a : alternative) (c : N) (s : jsstring) :
  c <> alt_open a -> match_alt a (c :: s) = None.
Proof.
  intros H. unfold match_alt. by destruct (N.eqb_spec c (alt_open a)).
Qed.

Lemma match_here_unique (alts : list alternative) (a : alternative)
    (s m : jsstring) :
  a ∈ alts -> NoDup (alt_open <$> alts) ->
  match_alt a s = Some m -> match_here alts s = Some m.
Proof.
  induction alts as [|a' alts IH]; intros Hin Hnd Hm;
    [by apply elem_of_nil in Hin|].
  rewrite fmap_cons in Hnd. apply NoDup_cons in Hnd as [Hfresh Hnd].
  simpl. destruct (match_alt a' s) as [m'|] eqn:E.
  - destruct (decide (alt_open a' = alt_open a)) as [Heq|Hne].
    + apply elem_of_cons in Hin as [->|Hin]; [congruence|].
      destruct Hfresh. rewrite Heq. by apply list_elem_of_fmap_2.
    + apply match_alt_shape in Hm as (w & r & -> & _).
      by rewrite match_alt_other in E.
  - apply elem_of_cons in Hin as [->|Hin]; [congruence | by apply IH].
Qed.

(** A span of one of the six kinds is the match at its position. *)
Lemma match_here_span (a : alternative) (w r : jsstring) :
  a ∈ scanner_regex -> alt_close a ∉ w -> (alt_min a <= length w)%nat ->
  match_here scanner_regex (alt_open a :: w ++ alt_close a :: r) =
    Some (alt_open a :: w ++ [alt_close a]).
Proof.
  intros Ha Hw Hmin. apply (match_here_unique _ a); [done| |].
  - decide_literal.
  - by apply match_alt_span.
Qed.

Lemma match_here_opener (c : N) (s m : jsstring) :
  match_here scanner_regex (c :: s) = Some m -> is_opener c = true.
Proof.
  intros H. apply match_here_shape in H as (a & w & r & Ha & E & _).
  injection E as -> _. unfold is_opener. apply existsb_exists.
  exists a. split; [by apply list_elem_of_In | apply N.eqb_refl].
Qed.

(** A match begins with an opening code unit. *)
Lemma match_here_head (s m : jsstring) :
  match_here scanner_regex s = Some m ->
  exists c m', m = c :: m' /\ is_opener c = true.
Proof.
  intros H. pose proof H as H'.
  apply match_here_shape in H as (a & w & r & Ha & -> & -> & _).
  apply match_here_opener in H'. by eexists _, _.
Qed.

Lemma first_match_skip (pre s : jsstring) :
  Forall (fun c => is_opener c = false) pre ->
  first_match (pre ++ s) = first_match s.
Proof.
  induction 1 as [|c pre Hc _ IH]; [done|].
  cbn [app first_match].
  destruct (match_here scanner_regex (c :: pre ++ s)) eqn:E; [|done].
  apply match_here_opener in E. congruence.
Qed.

Lemma first_match_here (s m : jsstring) :
  match_here scanner_regex s = Some m -> first_match s = Some m.
Proof. intros H. destruct s; cbn [first_match]; by rewrite H. Qed.

Lemma indexOf_from_skip (i : Z) (pre m post : jsstring) :
  Forall (fun c => is_opener c = false) pre ->
  match_here scanner_regex (m ++ post) = Some m ->
  indexOf_from i (pre ++ m ++ post) m = i + Z.of_nat (length pre).
Proof.
  intros Hpre Hm. revert i.
  induction Hpre as [|c pre Hc _ IH]; intros i.
  - cbn [app length]. destruct (m ++ post) eqn:E; cbn [indexOf_from];
      rewrite <- E, startsWith_app; lia.
  - cbn [app indexOf_from].
    destruct (match_here_head _ _ Hm) as (o & m' & -> & Ho).
    cbn [startsWith].
    destruct (N.eqb_spec o c) as [->|_]; [congruence|].
    cbn [andb]. rewrite IH. cbn [length]. lia.
Qed.

(** One round of the loop on a template that begins with a text without
    opening code unit followed by a match. *)
Lemma scan_step_head (ms : option (list (Dict other)))
    (st : scan_state other) (pre m post : jsstring) :
  template st = pre ++ m ++ post ->
  Forall (fun c => is_opener c = false) pre ->
  match_here scanner_regex (m ++ post) = Some m ->
  scan_step ms m st =
    if startsWith m (js "<") then
      '(r, b) ← scan_tag ms m (result st ++ text_of pre) (brief st ++ pre);
      mret (ScanState post r b)
    else mret (ScanState post (result st ++ text_of pre ++ [text_elem m])
                         (brief st ++ pre ++ m)).
Proof.
  intros Ht Hpre Hm.
  unfold scan_step, indexOf. rewrite Ht, indexOf_from_skip by done.
  rewrite slice_prefix. simpl Z.add.
  rewrite (app_assoc pre m post), (slice_suffix (pre ++ m) post)
    by (rewrite length_app; lia).
  destruct pre; cbv zeta beta iota; cbn [text_of app];
    by rewrite ?app_nil_r, <- ?app_assoc.
Qed.

Lemma scan_loop_head (fuel : nat) (ms : option (list (Dict other)))
    (st : scan_state other) (pre m post : jsstring) :
  template st = pre ++ m ++ post ->
  Forall (fun c => is_opener c = false) pre ->
  match_here scanner_regex (m ++ post) = Some m ->
  (length (template st) <= fuel)%nat ->
  scan_loop fuel ms st =
    '(r, b) ← (if startsWith m (js "<")
               then scan_tag ms m (result st ++ text_of pre) (brief st ++ pre)
               else mret (result st ++ text_of pre ++ [text_elem m],
                          brief st ++ pre ++ m));
    scan_loop (pred fuel) ms (ScanState post r b).
Proof.
  intros Ht Hpre Hm Hlen.
  destruct (match_here_head _ _ Hm) as (o & m' & -> & _).
  assert (first_match (template st) = Some (o :: m')) as Hfm
    by (rewrite Ht, first_match_skip by done; by apply first_match_here).
  rewrite scan_loop_unfold, Hfm.
  rewrite (scan_step_head ms st pre (o :: m') post) by done.
  destruct (template st) as [|c t] eqn:Et; [by destruct pre|].
  destruct fuel as [|fuel]; [simpl in Hlen; lia|]. cbn [pred].
  destruct (startsWith (o :: m') (js "<")); [|done].
  by destruct (scan_tag _ _ _ _) as [[r b]| |].
Qed.

Lemma parse_value_head (p p' : Payload other) (pre m rest : jsstring) :
  content p = Some (pre ++ m ++ rest) ->
  Forall (fun c => is_opener c = false) pre ->
  match_here scanner_regex (m ++ rest) = Some m ->
  content p' = Some rest ->
  mentions p' = mentions p ->
  attachments p' = attachments p ->
  parse_value p =
    '(es, b1) ← (if startsWith m (js "<")
                 then scan_tag (mentions p) m [] []
                 else mret ([text_elem m], m));
    '(segs, b) ← parse_value p';
    mret (text_of pre ++ es ++ segs, pre ++ b1 ++ b).
Proof.
  intros Hc Hpre Hmh Hc' Hm Ha. unfold parse_value, scan.
  rewrite (content_text_Some _ _ Hc), (content_text_Some _ _ Hc'), Hm, Ha.
  rewrite (scan_loop_head _ _ _ pre m rest) by done. cbn [result brief app].
  assert (length rest <= pred (length (pre ++ m ++ rest)))%nat as Hfuel.
  { destruct (match_here_head _ _ Hmh) as (o & m' & -> & _).
    rewrite !length_app. simpl. lia. }
  destruct (startsWith m (js "<")).
  - rewrite scan_tag_acc.
    destruct (scan_tag _ _ [] []) as [[es b1]| |]; [|done|done]. cbn.
    rewrite scan_loop_acc. cbn [template result brief].
    rewrite (scan_loop_more_fuel _ (length rest)) by done.
    destruct (scan_loop (length rest) _ _) as [st| |]; [|done|done]. cbn.
    destruct (template st) as [|c t]; cbn.
    all: destruct (attachments p) as [atts|]; cbn;
      [rewrite for_of_acc; symmetry; rewrite for_of_acc; cbn;
       destruct (for_of atts ([], [])) as [[es' b']| |]; [|done|done]; cbn|].
    all: by rewrite <- ?app_assoc.
  - cbn. rewrite scan_loop_acc. cbn [template result brief].
    rewrite (scan_loop_more_fuel _ (length rest)) by done.
    destruct (scan_loop (length rest) _ _) as [st| |]; [|done|done]. cbn.
    destruct (template st) as [|c t]; cbn.
    all: destruct (attachments p) as [atts|]; cbn;
      [rewrite for_of_acc; symmetry; rewrite for_of_acc; cbn;
       destruct (for_of atts ([], [])) as [[es' b']| |]; [|done|done]; cbn|].
    all: by rewrite <- ?app_assoc.
Qed.

(** X7. A content that begins with a text free of quote characters and
    of [<], followed by a bracket tag: [Message.parse] gives the text
    element (when the text is not empty), then the output of the tag, then
    what it gives on the rest of the content; the brief is built the same
    way, and an exception of the tag or of the rest is the exception of the
    whole. *)
Theorem parse_tag_then_rest (p p' : Payload other) (pre inner rest : jsstring) :
  content p = Some (pre ++ js "<" ++ inner ++ js ">" ++ rest) ->
  Forall (fun c => is_opener c = false) pre ->
  inner <> [] -> 62%N ∉ inner ->
  content p' = Some rest ->
  mentions p' = mentions p ->
  attachments p' = attachments p ->
  (parse p).1 =
    '(es, b1) ← scan_tag (mentions p) (js "<" ++ inner ++ js ">") [] [];
    '(segs, b) ← (parse p').1;
    mret (text_of pre ++ es ++ segs, pre ++ b1 ++ b).
Proof.
  intros Hc Hpre Hne Hin Hc' Hm Ha. rewrite !parse_fst.
  rewrite (parse_value_head p p' pre (js "<" ++ inner ++ js ">") rest);
    try done.
  - rewrite Hc. f_equal. f_equal. by rewrite <- !app_assoc.
  - by apply bracket_match_tag.
Qed.

(** X8. A quoted span is never parsed: a content that begins with a text
    free of quote characters and of [<], followed by an opening quote, code
    units other than the closing quote, and the closing quote, gives the
    text element (when the text is not empty), then one text element that
    holds the span with its two quotes, whatever stands between them, then
    what [Message.parse] gives on the rest. *)
Theorem parse_quoted_span_then_rest (p p' : Payload other) (a : alternative)
    (pre w rest : jsstring) :
  a ∈ scanner_regex -> alt_open a <> 60%N ->
  content p = Some (pre ++ alt_open a :: w ++ alt_close a :: rest) ->
  Forall (fun c => is_opener c = false) pre ->
  alt_close a ∉ w ->
  content p' = Some rest ->
  mentions p' = mentions p ->
  attachments p' = attachments p ->
  (parse p).1 =
    '(segs, b) ← (parse p').1;
    mret (text_of pre ++
            {[ js "type" := VStr (js "text");
               js "text" := VStr (alt_open a :: w ++ [alt_close a]) ]} :: segs,
          pre ++ alt_open a :: w ++ alt_close a :: b).
Proof.
  intros Ha Hq Hc Hpre Hw Hc' Hm Hatt. rewrite !parse_fst.
  assert (alt_min a <= length w)%nat as Hmin.
  { unfold scanner_regex in Ha.
    repeat (apply elem_of_cons in Ha as [->|Ha]); simpl; try lia.
    - done.
    - by apply elem_of_nil in Ha. }
  rewrite (parse_value_head p p' pre (alt_open a :: w ++ [alt_close a]) rest);
    try done.
  - assert (startsWith (alt_open a :: w ++ [alt_close a]) (js "<") = false)
      as -> by (change (js "<") with [60%N]; cbn [startsWith];
                by destruct (N.eqb_spec 60 (alt_open a))).
    cbn. destruct (parse_value p') as [[segs b]| |]; [|done|done]. cbn.
    by rewrite <- !app_assoc.
  - rewrite Hc. f_equal. f_equal. simpl. by rewrite <- !app_assoc.
  - simpl. rewrite <- app_assoc. by apply match_here_span.
Qed.

(** ** The array [mentions] is read by mention tags only *)

Lemma normalize_tag_mentions (ms ms' : option (list (Dict other)))
    (type : jsstring) (attrs : list jsstring) :
  startsWith type (js "@!") = false ->
  normalize_tag ms type attrs = normalize_tag ms' type attrs.
Proof. intros H. unfold normalize_tag. by rewrite H. Qed.

Lemma scan_tag_mentions (ms ms' : option (list (Dict other)))
    (w : jsstring) (r : list (MessageElem other)) (b : jsstring) :
  startsWith w (js "@!") = false ->
  scan_tag ms (js "<" ++ w ++ js ">") r b =
    scan_tag ms' (js "<" ++ w ++ js ">") r b.
Proof.
  intros H. rewrite !scan_tag_inner.
  destruct (split 44 w) as [|type attrs] eqn:E; [done|].
  rewrite (normalize_tag_mentions ms ms'); [done|].
  destruct (startsWith type (js "@!")) eqn:Et; [|done].
  apply startsWith_spec in Et as [x ->].
  apply split_head in E as [_ Hw].
  assert (startsWith w (js "@!") = true); [|congruence].
  apply startsWith_spec.
  destruct Hw as [->|[y ->]]; rewrite <- ?app_assoc; by eexists.
Qed.

Lemma scan_loop_mentions (P : jsstring -> Prop)
    (ms ms' : option (list (Dict other))) :
  (forall pre m post, P (pre ++ m ++ post) -> P post) ->
  (forall s m, P s -> first_match s = Some m ->
               startsWith m (js "<") = true ->
               forall r b, scan_tag ms m r b = scan_tag ms' m r b) ->
  forall fuel st,
    P (template st) -> scan_loop fuel ms st = scan_loop fuel ms' st.
Proof.
  intros Hsuffix Hsame fuel.
  induction fuel as [|fuel IH]; intros st HP; rewrite !scan_loop_unfold.
  - done.
  - destruct (template st) as [|c t] eqn:Et; [done|].
    destruct (first_match (c :: t)) as [[|x m]|] eqn:Em; [done| |done].
    rewrite <- Et in Em, HP.
    destruct (scan_step_eq ms st _ Em) as (pre & post & Ht & _ & _ & _ & E).
    destruct (scan_step_eq ms' st _ Em) as (pre' & post' & Ht' & _ & _ & _ & E').
    assert (scan_step ms (x :: m) st = scan_step ms' (x :: m) st) as Hs.
    { unfold scan_step.
      destruct (startsWith (x :: m) (js "<")) eqn:Hsw; [|done].
      destruct (slice (template st) 0 _); cbv zeta beta iota;
        by rewrite (Hsame _ _ HP Em Hsw). }
    rewrite <- Hs, E. clear E E' Hs.
    assert (P post) as HPpost
      by (apply (Hsuffix pre (x :: m)); by rewrite <- Ht).
    destruct (startsWith (x :: m) (js "<")).
    + destruct pre; cbv zeta beta iota;
        (destruct (scan_tag _ _ _ _) as [[r b]| |]; [|done|done]); cbn;
        by apply IH.
    + destruct pre; cbv zeta beta iota; cbn; by apply IH.
Qed.

(** X9. The array [mentions] is read for mention tags only: two payloads
    with the same content and attachments, the content without the text
    [<@!], get the same outcome from [Message.parse], whatever their
    [mentions] are. *)
Theorem parse_ignores_mentions (p p' : Payload other) :
  content p' = content p ->
  attachments p' = attachments p ->
  indexOf (content_text p) (js "<@!") = -1 ->
  (parse p').1 = (parse p).1.
Proof.
  intros Hc Ha Hi. rewrite !parse_fst. unfold parse_value, scan, content_text.
  rewrite Hc, Ha. fold (content_text p).
  rewrite (scan_loop_mentions
             (fun s => forall a b, s <> a ++ js "<@!" ++ b)
             (mentions p') (mentions p)); [done| | |].
  - intros pre m post H a b ->. destruct (H (pre ++ m ++ a) b).
    by rewrite <- !app_assoc.
  - intros s m Hs Hfm Hsw r b.
    destruct (first_match_bracket s m Hfm Hsw)
      as (pre & post & w & -> & -> & _).
    apply scan_tag_mentions.
    destruct (startsWith w (js "@!")) eqn:E; [|done].
    apply startsWith_spec in E as [x ->].
    destruct (Hs pre (x ++ js ">" ++ post)).
    change (js "<@!") with (js "<" ++ js "@!"). by rewrite <- !app_assoc.
  - cbn [template]. by apply indexOf_none.
Qed.

(** ** The branches of a bracket tag *)

Lemma normalize_tag_generic (ms : option (list (Dict other)))
    (type : jsstring) (attrs : list jsstring) :
  startsWith type (js "faceType") = false ->
  startsWith type (js "@!") = false ->
  type <> js "@everyone" ->
  shorthand_test type = false ->
  normalize_tag ms type attrs = Returned (type, map AttrStr attrs).
Proof.
  intros Hf Ha He Hs. unfold normalize_tag. rewrite Hf, Ha, Hs.
  unfold str_eqb. rewrite bool_decide_eq_false_2 by done.
  by destruct (startsWith type (js "@")).
Qed.

Lemma attr_entry_markup (kv : jsstring * option jsstring) :
  61%N ∉ kv.1 ->
  attr_entry (AttrStr (attr_markup kv)) =
    Returned (toLowerCase kv.1, VStr (trimQuote (default [] kv.2))).
Proof.
  destruct kv as [k [v|]]; cbn [fst snd]; intros Hk;
    unfold attr_entry, attr_markup; cbn [fst snd default].
  - change (js "=") with [61%N]. simpl app.
    rewrite split_app by done. by rewrite join_split.
  - by rewrite split_none.
Qed.

Lemma mapM_attr_entry_markup (kvs : list (jsstring * option jsstring)) :
  Forall (fun kv => 61%N ∉ kv.1) kvs ->
  mapM attr_entry (map AttrStr (map attr_markup kvs)) =
    Returned ((fun kv => (toLowerCase kv.1,
                          VStr (trimQuote (default [] kv.2)))) <$> kvs).
Proof.
  induction 1 as [|kv kvs Hk _ IH]; [done|].
  rewrite !map_cons, mapM_cons, attr_entry_markup, IH by done. reflexivity.
Qed.

(** X10. A tag that is not a face tag, a mention tag or a shorthand face
    code. Its attributes are read from left to right: the key is the text
    before the first [=] in lower case, the value the text after it,
    trimmed (the trimmed empty text for an attribute without [=]). They are
    written over [{type}], so that an attribute named [type] replaces the
    type of the tag and a later attribute replaces an earlier one with the
    same key. The brief is the type, a comma, and the attributes as they
    were written. *)
Theorem scan_tag_attributes (ms : option (list (Dict other)))
    (type : jsstring) (kvs : list (jsstring * option jsstring))
    (r : list (MessageElem other)) (b : jsstring) :
  startsWith type (js "faceType") = false ->
  startsWith type (js "@!") = false ->
  type <> js "@everyone" ->
  shorthand_test type = false ->
  44%N ∉ type ->
  Forall (fun kv => (61%N ∉ kv.1) /\ (44%N ∉ attr_markup kv)) kvs ->
  scan_tag ms (bracket_tag type (map attr_markup kvs)) r b =
    Returned
      (r ++ [foldl (fun e kv =>
                      <[toLowerCase kv.1 := VStr (trimQuote (default [] kv.2))]> e)
                   {[ js "type" := VStr type ]} kvs],
       b ++ js "<" ++ type ++ js "," ++
         join (js ",") (map attr_markup kvs) ++ js ">").
Proof.
  intros Hf Ha He Hs Hty Hkvs.
  rewrite scan_tag_acc, scan_tag_bracket.
  - rewrite normalize_tag_generic by done. cbn.
    rewrite mapM_attr_entry_markup
      by (eapply Forall_impl; [exact Hkvs | by intros kv [? _]]).
    cbn. rewrite with_type_fromEntries, spread_fmap.
    unfold tag_brief. by rewrite attr_text_AttrStr.
  - apply Forall_cons. split; [done|]. apply Forall_fmap.
    eapply Forall_impl; [exact Hkvs | by intros kv [_ ?]].
Qed.

(** X11. A face tag [<faceType...>] is read as the tag [<face,...>] whose
    attributes are those of the face tag with, in each, the first
    [faceId] replaced by [id]; what was written after [faceType] is
    dropped. *)
Theorem scan_tag_faceType (ms : option (list (Dict other)))
    (type : jsstring) (attrs : list jsstring)
    (r : list (MessageElem other)) (b : jsstring) :
  startsWith type (js "faceType") = true ->
  Forall (fun w => 44%N ∉ w) (type :: attrs) ->
  scan_tag ms (bracket_tag type attrs) r b =
    scan_tag ms
      (bracket_tag (js "face")
                   (map (fun a => replace a (js "faceId") (js "id")) attrs))
      r b.
Proof.
  intros Hf Hch.
  rewrite (scan_tag_acc ms (bracket_tag type attrs)).
  rewrite (scan_tag_acc ms (bracket_tag (js "face") _)).
  rewrite !scan_tag_bracket.
  - rewrite (normalize_tag_generic ms (js "face")) by done.
    unfold normalize_tag. rewrite Hf. by rewrite map_map.
  - apply Forall_cons. split; [decide_literal|].
    apply Forall_cons in Hch as [_ Hch]. apply Forall_fmap.
    eapply Forall_impl; [exact Hch|]. intros w Hw. simpl.
    apply replace_not_elem; [done | decide_literal].
  - done.
Qed.

Lemma all_digits_not (d : jsstring) (c : N) :
  all_digits d = true -> (57 < c)%N \/ (c < 48)%N -> c ∉ d.
Proof.
  induction d as [|x d IH]; intros H Hc; [apply not_elem_of_nil|].
  simpl in H. apply andb_true_iff in H as [Hx H].
  apply not_elem_of_cons. split; [|by apply IH].
  unfold is_digit in Hx. apply andb_true_iff in Hx as [H1 H2].
  apply N.leb_le in H1, H2. lia.
Qed.

(** The texts [/^[a-z]+:[0-9]+$/] accepts. *)
Lemma shorthand_rest_shape (s : jsstring) :
  shorthand_rest s = true ->
  exists l d, s = l ++ 58%N :: d /\ forallb is_lower l = true /\
              d <> [] /\ all_digits d = true.
Proof.
  induction s as [|c s IH]; [done|]. simpl.
  destruct (is_lower c) eqn:Hc.
  - intros H. destruct (IH H) as (l & d & -> & Hl & Hd & Hdig).
    exists (c :: l), d. simpl. by rewrite Hc.
  - intros H. apply andb_true_iff in H as [H Hdig].
    apply andb_true_iff in H as [Hcolon Hne].
    apply N.eqb_eq in Hcolon as ->.
    exists [], s. split; [done|]. split; [done|]. split; [|done].
    intros ->. by vm_compute in Hne.
Qed.

Lemma shorthand_test_shape (s : jsstring) :
  shorthand_test s = true ->
  exists l d, s = l ++ 58%N :: d /\ l <> [] /\ forallb is_lower l = true /\
              d <> [] /\ all_digits d = true.
Proof.
  destruct s as [|c s]; [done|]. simpl. intros H.
  apply andb_true_iff in H as [Hc H].
  destruct (shorthand_rest_shape _ H) as (l & d & -> & Hl & Hd & Hdig).
  exists (c :: l), d. simpl. by rewrite Hc.
Qed.

Lemma forallb_lower_not (l : jsstring) (c : N) :
  forallb is_lower l = true -> (c < 97)%N -> c ∉ l.
Proof.
  induction l as [|x l IH]; intros H Hc; [apply not_elem_of_nil|].
  simpl in H. apply andb_true_iff in H as [Hx H].
  apply not_elem_of_cons. split; [|by apply IH].
  intros ->. unfold is_lower in Hx. apply andb_true_iff in Hx as [H1 H2].
  apply N.leb_le in H1, H2. lia.
Qed.

(** X12. A tag whose type is a shorthand face code, lower-case letters,
    a colon and digits, gives a face element whose [id] is the digits,
    trimmed; the attributes written in the tag are dropped. *)
Theorem scan_tag_shorthand (ms : option (list (Dict other)))
    (type : jsstring) (attrs : list jsstring)
    (r : list (MessageElem other)) (b : jsstring) :
  shorthand_test type = true ->
  Forall (fun w => 44%N ∉ w) attrs ->
  toLowerCase (js "id") = js "id" ->
  exists l d,
    type = l ++ js ":" ++ d /\ l <> [] /\ d <> [] /\
    forallb is_lower l = true /\ all_digits d = true /\
    scan_tag ms (bracket_tag type attrs) r b =
      Returned (r ++ [ {[ js "type" := VStr (js "face");
                          js "id" := VStr (trimQuote d) ]} ],
                b ++ js "<face,id=" ++ d ++ js ">").
Proof.
  intros Hs Hattrs Hid.
  destruct (shorthand_test_shape _ Hs) as (l & d & -> & Hl & Hlow & Hd & Hdig).
  exists l, d. repeat (split; [done|]).
  assert (44%N ∉ l ++ 58%N :: d) as Hty.
  { rewrite not_elem_of_app, not_elem_of_cons. split; [|split; [done|]].
    - by apply forallb_lower_not.
    - apply all_digits_not; [done | right; lia]. }
  rewrite scan_tag_acc, scan_tag_bracket by (by apply Forall_cons).
  assert (normalize_tag ms (l ++ 58%N :: d) attrs =
          Returned (js "face", [AttrStr (js "id=" ++ d)])) as ->.
  { unfold normalize_tag.
    destruct (startsWith (l ++ 58%N :: d) (js "faceType")) eqn:Hf;
      [by rewrite (faceType_not_shorthand _ Hf) in Hs|].
    destruct (startsWith (l ++ 58%N :: d) (js "@")) eqn:Ha;
      [by rewrite (at_not_shorthand _ Ha) in Hs|].
    rewrite Hs, split_app by (by apply forallb_lower_not).
    rewrite split_none by (apply all_digits_not; [done | left; lia]).
    reflexivity. }
  cbn. unfold attr_entry.
  change (js "id=" ++ d) with (js "id" ++ 61%N :: d).
  rewrite split_app by decide_literal.
  change (js "=") with [61%N]. rewrite join_split, Hid. cbn.
  assert (<[js "id" := VStr (trimQuote d)]> ∅ ∪ {[ js "type" := VStr (js "face") ]} =
          ({[ js "type" := VStr (js "face");
              js "id" := VStr (trimQuote d) ]} : MessageElem other)) as ->.
  { rewrite insert_empty. symmetry. apply insert_union_singleton_r.
    apply lookup_singleton_ne. decide_literal. }
  reflexivity.
Qed.

(** ** Every element has a type *)

Lemma scan_tag_has_type (ms : option (list (Dict other))) (m : jsstring)
    (e : MessageElem other) (b : jsstring) :
  scan_tag ms m [] [] = Returned ([e], b) -> is_Some (e !! js "type").
Proof.
  unfold scan_tag. destruct (split 44 _) as [|type attrs]; [done|].
  destruct (normalize_tag ms type attrs) as [[type' attrs']| |]; [|done|done].
  cbn. destruct (mapM attr_entry attrs') as [entries| |]; [|done|done].
  cbn. intros [= <- _]. unfold with_type.
  apply lookup_union_is_Some. right. rewrite lookup_singleton_eq; by eexists.
Qed.

Lemma attachment_elem_has_type (type : jsstring) (data : Dict other) :
  is_Some (attachment_elem type data !! js "type").
Proof.
  unfold attachment_elem.
  rewrite !lookup_insert_ne by decide_literal.
  rewrite spread_base. apply lookup_union_is_Some. right.
  rewrite lookup_singleton_eq; by eexists.
Qed.

(** X13. Every element [Message.parse] returns has a property [type]. *)
Theorem parse_elements_have_type (p : Payload other)
    (segs : list (MessageElem other)) (b : jsstring) :
  (parse p).1 = Returned (segs, b) ->
  Forall (fun e => is_Some (e !! js "type")) segs.
Proof.
  rewrite parse_fst. intros H.
  apply parse_value_tokens in H
    as (tokens & scanned & attached & _ & Htok & Hatt & -> & _).
  apply Forall_app. split.
  - clear Hatt. induction Htok as [|t o tokens scanned Ho _ IH]; [constructor|].
    rewrite fmap_cons. constructor; [|done].
    destruct Ho as (_ & [[_ ->]|[_ Hs]]).
    + cbn. unfold text_elem. rewrite lookup_insert_eq; by eexists.
    + by apply scan_tag_has_type in Hs.
  - induction Hatt as [|a o atts attached Ho _ IH]; [constructor|].
    rewrite fmap_cons. constructor; [|done].
    destruct o as [e b']. apply push_attachment_inv in Ho
      as (ct & type & rest & _ & _ & -> & _).
    apply attachment_elem_has_type.
Qed.

(** ** An attachment without a content type *)

Lemma push_attachment_fuel (acc : list (MessageElem other) * jsstring)
    (a : Dict other) :
  push_attachment acc a <> OutOfFuel.
Proof.
  unfold push_attachment.
  destruct (obj_get a (js "content_type")); try done.
  by destruct (split 47 s).
Qed.

Lemma for_of_throws (atts : list (Dict other))
    (acc : list (MessageElem other) * jsstring) :
  Exists (fun a => forall ct, obj_get a (js "content_type") <> VStr ct) atts ->
  for_of atts acc = Thrown TypeError.
Proof.
  intros H. revert acc. induction H as [a atts Ha|a atts _ IH]; intros acc.
  - cbn. unfold push_attachment.
    destruct (obj_get a (js "content_type")) as [| | |ct|]; try done.
    by destruct (Ha ct).
  - cbn. pose proof (push_attachment_fuel acc a) as Hf.
    destruct (push_attachment acc a) as [acc'|[]|]; [|done|done].
    cbn. apply IH.
Qed.

(** X14. An attachment whose [content_type] is not a string makes
    [Message.parse] throw a TypeError, whatever the content and the other
    attachments are; the payload keeps its [attachments] and [mentions]. *)
Theorem parse_attachment_without_type_throws (p : Payload other)
    (atts : list (Dict other)) :
  attachments p = Some atts ->
  Exists (fun a => forall ct, obj_get a (js "content_type") <> VStr ct) atts ->
  parse p = (Thrown TypeError, p).
Proof.
  intros Ha Hbad. unfold parse.
  assert (parse_value p = Thrown TypeError) as ->; [|done].
  unfold parse_value, scan.
  pose proof (scan_loop_fuel (length (content_text p)) (mentions p)
                (ScanState (content_text p) [] []) (le_n _)) as Hs.
  destruct (scan_loop _ _ _) as [st|[]|]; [|done|done]. cbn.
  rewrite Ha. destruct (template st); cbn; by apply for_of_throws.
Qed.

(** X15. [Message.parse] cannot be run twice on the same payload when
    the first quoted span or bracket tag of the content is a mention tag:
    the first call deletes [mentions], and the second one throws a
    TypeError. *)
Theorem parse_twice_mention_throws (p p1 : Payload other)
    (r : list (MessageElem other) * jsstring) (id : jsstring) :
  parse p = (Returned r, p1) ->
  first_match (content_text p) = Some (js "<@!" ++ id ++ js ">") ->
  parse p1 = (Thrown TypeError, p1).
Proof.
  intros H Hfm. unfold parse in H.
  destruct (parse_value p) as [r'| |]; [|done|done].
  injection H as _ <-.
  apply (parse_first_tag_throws _ (content_text p) (js "<@!" ++ id ++ js ">"));
    [|done|done|].
  - cbn. unfold content_text in *. destruct (content p); [done|].
    by destruct id.
  - intros r0 b0. cbn [mentions delete_mentions].
    change (js "<@!" ++ id ++ js ">") with (js "<" ++ (js "@!" ++ id) ++ js ">").
    rewrite scan_tag_inner.
    destruct (split_mention id) as (w & ws & _ & ->). reflexivity.
Qed.

(** ** The empty message *)

Lemma scan_tag_brief_nonempty (ms : option (list (Dict other))) (m : jsstring)
    (es : list (MessageElem other)) (b : jsstring) :
  scan_tag ms m [] [] = Returned (es, b) -> b <> [].
Proof.
  unfold scan_tag. destruct (split 44 _) as [|type attrs]; [done|].
  destruct (normalize_tag ms type attrs) as [[type' attrs']| |]; [|done|done].
  cbn. destruct (mapM attr_entry attrs') as [entries| |]; [|done|done].
  cbn. by intros [= _ <-].
Qed.

(** X16. [Message.parse] returns no element exactly when the content is
    empty or missing and there is no attachment, and exactly when the brief
    is empty. *)
Theorem parse_empty_iff (p : Payload other)
    (segs : list (MessageElem other)) (b : jsstring) :
  (parse p).1 = Returned (segs, b) ->
  (segs = [] <-> content_text p = [] /\ default [] (attachments p) = []) /\
  (b = [] <-> segs = []).
Proof.
  rewrite parse_fst. intros H.
  apply parse_value_tokens in H
    as (tokens & scanned & attached & Hc & Htok & Hatt & -> & ->).
  assert (scanned = [] <-> content_text p = []) as Hs.
  { rewrite <- Hc. destruct Htok as [|t o tokens scanned Ho _]; [done|].
    split; [done|]. destruct Ho as [Hne _]. simpl. by destruct t. }
  assert (attached = [] <-> default [] (attachments p) = []) as Ha
    by (destruct Hatt; done).
  assert (concat scanned.*2 = [] <-> scanned = []) as Hbs.
  { destruct Htok as [|t o tokens scanned Ho _]; [done|].
    split; [|done]. simpl. intros Hb. apply app_eq_nil in Hb as [Hb _].
    destruct Ho as (Hne & [[_ ->]|[_ Ht]]); [done|].
    by apply scan_tag_brief_nonempty in Ht. }
  assert (concat attached.*2 = [] <-> attached = []) as Hba.
  { destruct Hatt as [|a o atts attached Ho _]; [done|].
    split; [|done]. simpl. intros Hb. apply app_eq_nil in Hb as [Hb _].
    destruct o as [e b']. apply push_attachment_inv in Ho
      as (ct & type & rest & _ & _ & _ & Hb').
    cbn [snd] in Hb, Hb'. rewrite Hb' in Hb. unfold attachment_brief in Hb.
    change (js "<") with [60%N] in Hb. discriminate. }
  split.
  - rewrite <- Hs, <- Ha. split.
    + intros [H1 H2]%app_eq_nil.
      split; [by destruct scanned | by destruct attached].
    + by intros [-> ->].
  - split.
    + intros [H1 H2]%app_eq_nil. apply Hbs in H1 as ->. by apply Hba in H2 as ->.
    + intros [H1 H2]%app_eq_nil.
      assert (scanned = []) as -> by (by destruct scanned).
      assert (attached = []) as -> by (by destruct attached). done.
Qed.

(** ** The first match of the content, wherever it stands *)

Lemma first_match_leftmost (s m : jsstring) :
  first_match s = Some m ->
  exists pre post,
    s = pre ++ m ++ post /\ m <> [] /\
    (forall r, match_here scanner_regex (m ++ r) = Some m) /\
    (forall i, indexOf_from i s m = i + Z.of_nat (length pre)) /\
    (forall k, (k < length pre)%nat ->
               match_here scanner_regex (drop k s) = None).
Proof.
  induction s as [|c s IH]; intros H; [done|].
  cbn [first_match] in H.
  destruct (match_here scanner_regex (c :: s)) as [m0|] eqn:E.
  - injection H as ->.
    destruct (match_here_inv _ _ E) as (c' & d & w & r & Hs & -> & Hst).
    assert (Hsm : c :: s = (c' :: w ++ [d]) ++ r)
      by (rewrite Hs; simpl; by rewrite <- app_assoc).
    exists [], r. split; [done|]. split; [done|]. split; [done|]. split.
    + intros i. cbn [indexOf_from]. rewrite Hsm, startsWith_app. simpl. lia.
    + intros k Hk. simpl in Hk. lia.
  - destruct (IH H) as (pre & post & -> & Hm & Hst & Hi & Hleft).
    exists (c :: pre), post. split; [done|]. split; [done|]. split; [done|].
    split.
    + intros i. cbn [indexOf_from].
      destruct (startsWith (c :: pre ++ m ++ post) m) eqn:Hsw.
      * apply startsWith_spec in Hsw as [r' Hr']. rewrite Hr', Hst in E. done.
      * rewrite Hi. simpl length. lia.
    + intros [|k] Hk; [exact E|]. simpl in Hk. simpl. apply Hleft. lia.
Qed.

(** One round of the loop: the text before the match, then the match. *)
Lemma scan_step_first (ms : option (list (Dict other)))
    (st : scan_state other) (m : jsstring) :
  first_match (template st) = Some m ->
  exists pre post,
    template st = pre ++ m ++ post /\ m <> [] /\
    (forall r, match_here scanner_regex (m ++ r) = Some m) /\
    (forall k, (k < length pre)%nat ->
               match_here scanner_regex (drop k (template st)) = None) /\
    scan_step ms m st =
      if startsWith m (js "<") then
        '(r, b) ← scan_tag ms m (result st ++ text_of pre) (brief st ++ pre);
        mret (ScanState post r b)
      else mret (ScanState post (result st ++ text_of pre ++ [text_elem m])
                           (brief st ++ pre ++ m)).
Proof.
  intros H.
  destruct (first_match_leftmost _ _ H) as (pre & post & Ht & Hm & Hst & Hi & Hl).
  exists pre, post. split; [done|]. split; [done|]. split; [done|].
  split; [done|].
  unfold scan_step, indexOf. rewrite Hi, Ht, slice_prefix. simpl Z.add.
  rewrite (app_assoc pre m post), (slice_suffix (pre ++ m) post)
    by (rewrite length_app; lia).
  destruct pre; cbv zeta beta iota; cbn [text_of app];
    by rewrite ?app_nil_r, <- ?app_assoc.
Qed.

(** The content cut at its first match: the text before it, the output of
    the match, then what the rest of the content gives. *)
Lemma parse_value_first (p : Payload other) (s m : jsstring) :
  content p = Some s ->
  first_match s = Some m ->
  exists pre rest,
    s = pre ++ m ++ rest /\ m <> [] /\
    (forall r, match_here scanner_regex (m ++ r) = Some m) /\
    (forall k, (k < length pre)%nat ->
               match_here scanner_regex (drop k s) = None) /\
    forall p' : Payload other,
      content p' = Some rest ->
      mentions p' = mentions p ->
      attachments p' = attachments p ->
      parse_value p =
        '(es, b1) ← (if startsWith m (js "<")
                     then scan_tag (mentions p) m [] []
                     else mret ([text_elem m], m));
        '(segs, b) ← parse_value p';
        mret (text_of pre ++ es ++ segs, pre ++ b1 ++ b).
Proof.
  intros Hc Hfm.
  destruct (scan_step_first (mentions p) (ScanState s [] []) m Hfm)
    as (pre & rest & Ht & Hne & Hst & Hleft & Hstep).
  cbn [template result brief app] in Ht, Hleft, Hstep.
  exists pre, rest. split; [done|]. split; [done|]. split; [done|].
  split; [done|].
  intros p' Hc' Hm Ha. unfold parse_value, scan.
  rewrite (content_text_Some _ _ Hc), (content_text_Some _ _ Hc'), Hm, Ha.
  rewrite scan_loop_unfold. cbn [template]. rewrite Hfm.
  assert (exists n, length s = S n /\ (length rest <= n)%nat) as (n & -> & Hn).
  { rewrite Ht, !length_app. destruct m as [|x m]; [done|].
    simpl. eexists. split; [by rewrite Nat.add_succ_r|]. lia. }
  destruct s as [|c s]; [by destruct pre, m|].
  destruct m as [|x m]; [done|].
  rewrite Hstep. clear Hstep.
  destruct (startsWith (x :: m) (js "<")).
  - rewrite scan_tag_acc.
    destruct (scan_tag _ _ [] []) as [[es b1]| |]; [|done|done]. cbn.
    rewrite scan_loop_acc. cbn [template result brief].
    rewrite (scan_loop_more_fuel _ (length rest)) by done.
    destruct (scan_loop (length rest) _ _) as [st| |]; [|done|done]. cbn.
    destruct (template st) as [|c' t]; cbn.
    all: destruct (attachments p) as [atts|]; cbn;
      [rewrite for_of_acc; symmetry; rewrite for_of_acc; cbn;
       destruct (for_of atts ([], [])) as [[es' b']| |]; [|done|done]; cbn|].
    all: by rewrite <- ?app_assoc.
  - cbn. rewrite scan_loop_acc. cbn [template result brief].
    rewrite (scan_loop_more_fuel _ (length rest)) by done.
    destruct (scan_loop (length rest) _ _) as [st| |]; [|done|done]. cbn.
    destruct (template st) as [|c' t]; cbn.
    all: destruct (attachments p) as [atts|]; cbn;
      [rewrite for_of_acc; symmetry; rewrite for_of_acc; cbn;
       destruct (for_of atts ([], [])) as [[es' b']| |]; [|done|done]; cbn|].
    all: by rewrite <- ?app_assoc.
Qed.

(** ** Bracket tags left with no attribute *)





(** ** The cut of a content without bracket tags *)

Lemma first_match_None_all (s : jsstring) (k : nat) :
  first_match s = None -> match_here scanner_regex (drop k s) = None.
Proof.
  revert k; induction s as [|c s IH]; intros k H.
  - rewrite drop_nil. by apply first_match_None_here.
  - destruct k as [|k]; [by apply first_match_None_here|].
    simpl. apply IH. cbn [first_match] in H.
    by destruct (match_here scanner_regex (c :: s)).
Qed.

Lemma pieces_nonempty (tokens : list jsstring) :
  pieces tokens -> Forall (fun t => t <> []) tokens.
Proof.
  induction tokens as [|t tokens IH]; [constructor|].
  intros [[Hne _] H]. constructor; [done | by apply IH].
Qed.

Lemma first_piece_unique (t u r1 r2 : jsstring) :
  first_piece t r1 -> first_piece u r2 -> t ++ r1 = u ++ r2 -> t = u.
Proof.
  assert (forall t u r1 r2 : jsstring,
            first_piece t r1 -> first_piece u r2 -> t ++ r1 = u ++ r2 ->
            (length t <= length u)%nat -> t = u) as Hle.
  { clear. intros t u r1 r2 [Ht Ht'] [Hu Hu'] E Hlen.
    destruct Ht' as [Hmt|[Hnt Hrt]].
    - destruct Hu' as [Hmu|[Hnu _]]; [congruence|].
      specialize (Hnu 0%nat). rewrite <- E in Hnu.
      change (drop 0 (t ++ r1)) with (t ++ r1) in Hnu.
      rewrite Hnu in Hmt; [done|]. destruct u; [done | simpl; lia].
    - destruct Hu' as [Hmu|[Hnu _]].
      { specialize (Hnt 0%nat). rewrite E in Hnt.
        change (drop 0 (u ++ r2)) with (u ++ r2) in Hnt.
        rewrite Hnt in Hmu; [done|]. destruct t; [done | simpl; lia]. }
      destruct (decide (length t = length u)) as [Heq|Hneq].
      { by apply (app_inj_1 t u r1 r2). }
      assert (length t < length u)%nat as Hlt by lia.
      specialize (Hnu (length t) Hlt).
      rewrite <- E, drop_app_length in Hnu.
      destruct Hrt as [->|[x Hx]]; [|congruence].
      rewrite app_nil_r in E. apply (f_equal length) in E.
      rewrite length_app in E. lia. }
  intros Ht Hu E.
  destruct (Nat.le_ge_cases (length t) (length u)) as [H|H].
  - by apply (Hle t u r1 r2).
  - symmetry. by apply (Hle u t r2 r1).
Qed.

(** The cut is determined by the content. *)
Lemma pieces_unique (ts us : list jsstring) :
  pieces ts -> pieces us -> concat ts = concat us -> ts = us.
Proof.
  revert us; induction ts as [|t ts IH]; intros us Hts Hus E.
  - destruct us as [|u us]; [done|]. destruct Hus as [[Hne _] _].
    simpl in E. by destruct u.
  - destruct Hts as [Ht Hts].
    destruct us as [|u us].
    { destruct Ht as [Hne _]. simpl in E. by destruct t. }
    destruct Hus as [Hu Hus]. simpl in E.
    assert (t = u) as -> by (by apply (first_piece_unique t u _ _ Ht Hu)).
    apply app_inv_head in E. f_equal. by apply IH.
Qed.

Lemma parse_value_pieces (n : nat) (p : Payload other) :
  (length (content_text p) <= n)%nat ->
  60%N ∉ content_text p ->
  attachments p = None \/ attachments p = Some [] ->
  exists tokens : list jsstring,
    concat tokens = content_text p /\
    pieces tokens /\
    parse_value p = Returned (text_elem <$> tokens, content_text p).
Proof.
  revert p; induction n as [|n IH]; intros p Hlen Hno Ha.
  all: set (p0 := {| content := Some (content_text p);
                     attachments := attachments p;
                     mentions := mentions p; fields := fields p |}).
  all: change (parse_value p) with (parse_value p0).
  all: destruct (first_match (content_text p)) as [m|] eqn:Hfm.
  all: try (destruct (parse_value_first p0 _ m eq_refl Hfm)
              as (pre & rest & Hs & Hne & Hst & Hleft & Heq)).
  - rewrite Hs, !length_app in Hlen. destruct m; [done | simpl in Hlen; lia].
  - rewrite (parse_value_no_match p0 _ eq_refl Hfm Ha).
    destruct (content_text p) as [|c s] eqn:Es; [by exists []|].
    exists [c :: s]. simpl. rewrite app_nil_r. split; [done|].
    split; [|done]. split; [|done]. split; [done|]. right.
    split; [|by left]. intros k _. rewrite app_nil_r.
    by apply first_match_None_all.
  - set (p' := {| content := Some rest; attachments := attachments p;
                  mentions := mentions p; fields := fields p |}).
    rewrite (Heq p' eq_refl eq_refl eq_refl).
    rewrite Hs in Hno, Hlen.
    apply not_elem_of_app in Hno as [Hpre Hno].
    apply not_elem_of_app in Hno as [Hm Hrest].
    destruct (IH p') as (tokens & Hc & Hp & Hv); [| done | done |].
    { cbn. rewrite !length_app in Hlen. destruct m; [done | simpl in Hlen; lia]. }
    cbn in Hc. rewrite Hv.
    assert (startsWith m (js "<") = false) as ->.
    { destruct m as [|x m]; [done|]. change (js "<") with [60%N].
      cbn [startsWith]. apply not_elem_of_cons in Hm as [Hx _].
      destruct (N.eqb_spec 60 x); [congruence | done]. }
    cbn. rewrite Hs.
    exists (match pre with [] => [] | _ => [pre] end ++ m :: tokens).
    split; [|split].
    + destruct pre; simpl; by rewrite Hc.
    + assert (first_piece m (concat tokens)) as Hpm
        by (split; [done|]; left; by rewrite Hc).
      destruct pre as [|c pre]; [by split|].
      split; [|by split]. split; [done|]. right. simpl concat.
      rewrite Hc. split; [by rewrite <- Hs|]. right. by rewrite Hst.
    + by destruct pre.
  - rewrite (parse_value_no_match p0 _ eq_refl Hfm Ha).
    destruct (content_text p) as [|c s] eqn:Es; [by exists []|].
    exists [c :: s]. simpl. rewrite app_nil_r. split; [done|].
    split; [|done]. split; [|done]. split; [done|]. right.
    split; [|by left]. intros k _. rewrite app_nil_r.
    by apply first_match_None_all.
Qed.

(** X6. A content without [<] is never altered. [Message.parse] cuts it
    into the quoted spans and the texts around them: each piece is the
    match of the regular expression at its position or, where no match
    starts, the text up to the next match or up to the end. There is one
    such cut only. [Message.parse] returns one text element for each
    piece, in order, and the content itself as the brief. *)
Theorem parse_without_brackets (p : Payload other) :
  60%N ∉ content_text p ->
  attachments p = None \/ attachments p = Some [] ->
  exists tokens : list jsstring,
    concat tokens = content_text p /\
    Forall (fun t => t <> []) tokens /\
    pieces tokens /\
    (forall tokens', concat tokens' = content_text p -> pieces tokens' ->
                     tokens' = tokens) /\
    (parse p).1 =
      Returned ((fun t => {[ js "type" := VStr (js "text");
                             js "text" := VStr t ]}) <$> tokens,
                content_text p).
Proof.
  intros Hno Ha. rewrite parse_fst.
  destruct (parse_value_pieces _ p (le_n _) Hno Ha) as (tokens & Hc & Hp & Hv).
  exists tokens. split; [done|]. split; [by apply pieces_nonempty|].
  split; [done|]. split; [|done].
  intros tokens' Hc' Hp'. apply pieces_unique; [done | done | congruence].
Qed.

End Parse.

(** ** The accessors of GuildMessageEvent *)

(** C8. When the lookup of the bot throws, the accessor returns [null];
    no accessor ever lets an exception through. *)
Theorem guild_channel_lookup_failure (Guild Channel : Type)
    (e : GuildMessageEvent Guild Channel) :
  ((exists err, pickGuild (bot e) (guild_id e) = Thrown err) ->
   guild e = Returned None) /\
  ((exists err, pickChannel (bot e) (channel_id e) = Thrown err) ->
   channel e = Returned None) /\
  (forall err, guild e <> Thrown err /\ channel e <> Thrown err).
Proof.
  unfold guild, channel, try_catch. repeat split.
  - by intros [err ->].
  - by intros [err ->].
  - by destruct (pickGuild _ _).
  - by destruct (pickChannel _ _).
Qed.

(** ** The theorems at concrete payloads *)

Lemma parse_everyone_throws_witness :
  parse show_none toLowerCase_ascii trimQuote_spec
        (example_payload "hi <@everyone> all" None (Some [])) =
    (Thrown TypeError, example_payload "hi <@everyone> all" None (Some [])).
Proof.
  apply (parse_everyone_throws show_none toLowerCase_ascii trimQuote_spec
           _ (js "hi <@everyone> all")).
  - reflexivity.
  - vm_compute. reflexivity.
Defined.

Lemma parse_mention_without_mentions_throws_witness :
  parse show_none toLowerCase_ascii trimQuote_spec
        (example_payload "<@!1>" None None) =
    (Thrown TypeError, example_payload "<@!1>" None None).
Proof.
  apply (parse_mention_without_mentions_throws
           show_none toLowerCase_ascii trimQuote_spec _ (js "<@!1>") (js "1")).
  - reflexivity.
  - vm_compute. reflexivity.
  - reflexivity.
Defined.

Lemma parse_plain_text_witness :
  (parse show_none toLowerCase_ascii trimQuote_spec
         (example_payload "hello" None (Some []))).1 =
    Returned ([ {[ js "type" := VStr (js "text");
                   js "text" := VStr (js "hello") ]} ], js "hello").
Proof.
  apply (parse_plain_text show_none toLowerCase_ascii trimQuote_spec
           (example_payload "hello" None (Some [])) (js "hello")).
  - reflexivity.
  - vm_compute. reflexivity.
  - left. reflexivity.
Defined.

Lemma parse_deletes_attachments_and_mentions_witness :
  (parse show_none toLowerCase_ascii trimQuote_spec
         (example_payload "hello" (Some [image_attachment]) (Some [ann]))).2 =
    {| content := Some (js "hello"); attachments := None; mentions := None;
       fields := [(js "id", VStr (js "m1"))] |}.
Proof.
  destruct (parse show_none toLowerCase_ascii trimQuote_spec
              (example_payload "hello" (Some [image_attachment]) (Some [ann])))
    as [[r| |] [c a m f]] eqn:E.
  - destruct (parse_deletes_attachments_and_mentions
                show_none toLowerCase_ascii trimQuote_spec _ _ r E)
      as (Ha & Hm & Hc & Hf).
    simpl in Ha, Hm, Hc, Hf. simpl. rewrite Ha, Hm, Hc, Hf. reflexivity.
  - vm_compute in E. discriminate.
  - vm_compute in E. discriminate.
Defined.

Lemma guild_channel_lookup_failure_witness :
  guild {| bot := failing_bot; guild_id := js "g"; channel_id := js "c" |} =
    Returned None /\
  channel {| bot := failing_bot; guild_id := js "g"; channel_id := js "c" |} =
    Returned None.
Proof.
  destruct (guild_channel_lookup_failure unit unit
              {| bot := failing_bot; guild_id := js "g"; channel_id := js "c" |})
    as (Hg & Hc & _).
  split; [apply Hg | apply Hc]; exists TypeError; reflexivity.
Defined.

Lemma parse_attachment_elements_witness :
  exists elems brief,
    (parse show_none toLowerCase_ascii trimQuote_spec
           (example_payload "hi" (Some [image_attachment]) None)).1 =
      Returned ([ {[ js "type" := VStr (js "text");
                     js "text" := VStr (js "hi") ]} ] ++ elems, brief).
Proof.
  destruct (parse_attachment_elements show_none toLowerCase_ascii trimQuote_spec
              (example_payload "hi" (Some [image_attachment]) None)
              ([ {[ js "type" := VStr (js "text");
                    js "text" := VStr (js "hi") ]} ], js "hi")
              [image_attachment])
    as (elems & brief & Hp & _).
  - vm_compute. reflexivity.
  - reflexivity.
  - apply Forall_cons. split; [|constructor].
    split; [decide_literal | by exists (js "image/png")].
  - exists elems, brief. exact Hp.
Defined.

Lemma parse_brief_roundtrip_witness :
  exists segs b,
    (parse show_none toLowerCase_ascii trimQuote_spec
           (example_payload "<a,b=c><f:42>" None None)).1 = Returned (segs, b) /\
    forall p2 : Payload Empty_set,
      content p2 = Some b ->
      attachments p2 = None \/ attachments p2 = Some [] ->
      (parse show_none toLowerCase_ascii trimQuote_spec p2).1 =
        Returned (segs, b).
Proof.
  apply (parse_brief_roundtrip show_none toLowerCase_ascii trimQuote_spec
           (example_payload "<a,b=c><f:42>" None None)
           [(js "a", [js "b=c"]); (js "f:42", [])]).
  - reflexivity.
  - left. reflexivity.
  - unfold plain_tag. decide_literal.
Defined.

Lemma parse_segment_order_witness :
  exists segs b,
    (parse show_none toLowerCase_ascii trimQuote_spec
           (example_payload "hi<b,c=d>" (Some [image_attachment]) None)).1 =
      Returned (segs, b) /\
    exists (tokens : list jsstring)
           (scanned attached : list (MessageElem Empty_set * jsstring)),
      concat tokens = js "hi<b,c=d>" /\
      segs = scanned.*1 ++ attached.*1 /\
      b = concat scanned.*2 ++ concat attached.*2.
Proof.
  destruct (parse show_none toLowerCase_ascii trimQuote_spec
              (example_payload "hi<b,c=d>" (Some [image_attachment]) None)).1
    as [[segs b]| |] eqn:E.
  - exists segs, b. split; [reflexivity|].
    destruct (parse_segment_order show_none toLowerCase_ascii trimQuote_spec
                _ segs b E)
      as (tokens & scanned & attached & Hc & _ & _ & Hs & Hb).
    exists tokens, scanned, attached. split; [exact Hc|]. split; assumption.
  - vm_compute in E. discriminate.
  - vm_compute in E. discriminate.
Defined.



(** ** The further properties at concrete inputs *)

Lemma first_match_leftmost_span_witness :
  exists pre post a w,
    js "hi <b> c" = pre ++ js "<b>" ++ post /\
    a ∈ scanner_regex /\
    js "<b>" = alt_open a :: w ++ [alt_close a].
Proof.
  destruct (first_match_leftmost_span (js "hi <b> c") (js "<b>"))
    as (pre & post & a & w & Hs & Ha & Hm & _).
  - vm_compute. reflexivity.
  - exists pre, post, a, w. split; [exact Hs|]. split; [exact Ha | exact Hm].
Defined.

Lemma first_match_complete_witness :
  is_Some (first_match (js "say " ++ 60%N :: js "b" ++ 62%N :: js " !")).
Proof.
  apply (first_match_complete (Alt 60 62 1) (js "say ") (js "b") (js " !")).
  - unfold scanner_regex. do 5 right. left.
  - simpl. decide_literal.
  - simpl. lia.
Defined.

Lemma parse_terminates_witness :
  (0 < length (js "<b>") /\
   length (js " c") + length (js "<b>") <= length (js "hi <b> c"))%nat /\
  ((exists r, (parse show_none toLowerCase_ascii trimQuote_spec
                     (example_payload "hi <b> c" None None)).1 = Returned r) \/
   (parse show_none toLowerCase_ascii trimQuote_spec
          (example_payload "hi <b> c" None None)).1 = Thrown TypeError).
Proof.
  destruct (parse_terminates show_none toLowerCase_ascii trimQuote_spec)
    as [Hstep Hp].
  split; [|apply Hp].
  apply (Hstep None (js "<b>") (ScanState (js "hi <b> c") [] [])
               (ScanState (js " c")
                  [ {[ js "type" := VStr (js "text"); js "text" := VStr (js "hi ") ]};
                    {[ js "type" := VStr (js "b") ]} ]
                  (js "hi <b,>"))).
  - vm_compute. reflexivity.
  - vm_compute. reflexivity.
Defined.

Lemma scan_tag_throws_iff_witness :
  scan_tag show_none toLowerCase_ascii trimQuote_spec None
           (js "<" ++ js "@!1" ++ js ">") [] [] = Thrown TypeError.
Proof.
  destruct (scan_tag_throws_iff show_none toLowerCase_ascii trimQuote_spec
              None (js "@!1") (js "@!1") [] [] [])
    as [[_ H] _].
  - vm_compute. reflexivity.
  - apply H. left. split; reflexivity.
Defined.

Lemma parse_returns_witness :
  exists r,
    (parse show_none toLowerCase_ascii trimQuote_spec
           (example_payload "hi <b> 'q'" (Some [image_attachment]) None)).1 =
      Returned r.
Proof.
  apply (parse_returns show_none toLowerCase_ascii trimQuote_spec).
  - vm_compute. reflexivity.
  - intros _. vm_compute. reflexivity.
  - apply Forall_cons. split; [by exists (js "image/png") | constructor].
Defined.

Lemma parse_without_brackets_witness :
  (parse show_none toLowerCase_ascii trimQuote_spec
         (example_payload "say 'hi' now" None None)).1 =
    Returned ((fun t => {[ js "type" := VStr (js "text");
                           js "text" := VStr t ]}) <$>
                [js "say "; js "'hi'"; js " now"],
              js "say 'hi' now").
Proof.
  destruct (parse_without_brackets show_none toLowerCase_ascii trimQuote_spec
              (example_payload "say 'hi' now" None None))
    as (tokens & _ & _ & _ & Huniq & Hp).
  - decide_literal.
  - left. reflexivity.
  - rewrite Hp, <- (Huniq [js "say "; js "'hi'"; js " now"]); [reflexivity..|].
    split; [|split; [|split; [|exact I]]].
    + split; [discriminate|]. right. split.
      * intros k Hk.
        do 4 (destruct k as [|k]; [vm_compute; reflexivity|]).
        vm_compute in Hk. lia.
      * right. eexists. vm_compute. reflexivity.
    + split; [discriminate|]. left. vm_compute. reflexivity.
    + split; [discriminate|]. right. split; [|left; reflexivity].
      intros k Hk.
      do 4 (destruct k as [|k]; [vm_compute; reflexivity|]).
      vm_compute in Hk. lia.
Defined.

Lemma parse_tag_then_rest_witness :
  (parse show_none toLowerCase_ascii trimQuote_spec
         (example_payload "hi <b,c=d> you" None None)).1 =
    Returned ([ {[ js "type" := VStr (js "text"); js "text" := VStr (js "hi ") ]};
                {[ js "type" := VStr (js "b"); js "c" := VStr (js "d") ]};
                {[ js "type" := VStr (js "text"); js "text" := VStr (js " you") ]} ],
              js "hi <b,c=d> you").
Proof.
  rewrite (parse_tag_then_rest show_none toLowerCase_ascii trimQuote_spec
             (example_payload "hi <b,c=d> you" None None)
             (example_payload " you" None None)
             (js "hi ") (js "b,c=d") (js " you")).
  - vm_compute. reflexivity.
  - reflexivity.
  - decide_literal.
  - discriminate.
  - decide_literal.
  - reflexivity.
  - reflexivity.
  - reflexivity.
Defined.

Lemma parse_quoted_span_then_rest_witness :
  (parse show_none toLowerCase_ascii trimQuote_spec
         (example_payload "say '<b>' ok" None None)).1 =
    Returned ([ {[ js "type" := VStr (js "text"); js "text" := VStr (js "say ") ]};
                {[ js "type" := VStr (js "text"); js "text" := VStr (js "'<b>'") ]};
                {[ js "type" := VStr (js "text"); js "text" := VStr (js " ok") ]} ],
              js "say '<b>' ok").
Proof.
  rewrite (parse_quoted_span_then_rest
             show_none toLowerCase_ascii trimQuote_spec
             (example_payload "say '<b>' ok" None None)
             (example_payload " ok" None None)
             (Alt 39 39 0) (js "say ") (js "<b>") (js " ok")).
  - vm_compute. reflexivity.
  - unfold scanner_regex. right. left.
  - discriminate.
  - reflexivity.
  - decide_literal.
  - simpl. decide_literal.
  - reflexivity.
  - reflexivity.
  - reflexivity.
Defined.

Lemma parse_ignores_mentions_witness :
  (parse show_none toLowerCase_ascii trimQuote_spec
         (example_payload "hi <b>" None (Some [ann]))).1 =
  (parse show_none toLowerCase_ascii trimQuote_spec
         (example_payload "hi <b>" None None)).1.
Proof.
  apply (parse_ignores_mentions show_none toLowerCase_ascii trimQuote_spec).
  - reflexivity.
  - reflexivity.
  - vm_compute. reflexivity.
Defined.

Lemma scan_tag_attributes_witness :
  scan_tag show_none toLowerCase_ascii trimQuote_spec None
           (bracket_tag (js "img")
              (map attr_markup [ (js "Src", Some (js "'a'"));
                                 (js "type", Some (js "x"));
                                 (js "flag", None) ])) [] [] =
    Returned ([ {[ js "type" := VStr (js "x"); js "src" := VStr (js "a");
                   js "flag" := VStr [] ]} ],
              js "<img,Src='a',type=x,flag>").
Proof.
  rewrite (scan_tag_attributes show_none toLowerCase_ascii trimQuote_spec).
  - vm_compute. reflexivity.
  - reflexivity.
  - reflexivity.
  - discriminate.
  - reflexivity.
  - decide_literal.
  - decide_literal.
Defined.

Lemma scan_tag_faceType_witness :
  scan_tag show_none toLowerCase_ascii trimQuote_spec None
           (bracket_tag (js "faceType=1") [js "faceId=7"]) [] [] =
    Returned ([ {[ js "type" := VStr (js "face"); js "id" := VStr (js "7") ]} ],
              js "<face,id=7>").
Proof.
  rewrite (scan_tag_faceType show_none toLowerCase_ascii trimQuote_spec).
  - vm_compute. reflexivity.
  - reflexivity.
  - decide_literal.
Defined.

Lemma scan_tag_shorthand_witness :
  exists l d,
    js "f:42" = l ++ js ":" ++ d /\
    scan_tag show_none toLowerCase_ascii trimQuote_spec None
             (bracket_tag (js "f:42") [js "x=1"]) [] [] =
      Returned ([] ++ [ {[ js "type" := VStr (js "face");
                           js "id" := VStr (trimQuote_spec d) ]} ],
                [] ++ js "<face,id=" ++ d ++ js ">").
Proof.
  destruct (scan_tag_shorthand show_none toLowerCase_ascii trimQuote_spec
              None (js "f:42") [js "x=1"] [] [])
    as (l & d & Ht & _ & _ & _ & _ & Hs).
  - reflexivity.
  - decide_literal.
  - reflexivity.
  - exists l, d. split; [exact Ht | exact Hs].
Defined.

Lemma parse_elements_have_type_witness :
  exists segs b,
    (parse show_none toLowerCase_ascii trimQuote_spec
           (example_payload "hi <b,type=c>" (Some [typed_attachment]) None)).1 =
      Returned (segs, b) /\
    Forall (fun e => is_Some (e !! js "type")) segs.
Proof.
  destruct (parse show_none toLowerCase_ascii trimQuote_spec
              (example_payload "hi <b,type=c>" (Some [typed_attachment]) None)).1
    as [[segs b]| |] eqn:E.
  - exists segs, b. split; [reflexivity|].
    exact (parse_elements_have_type show_none toLowerCase_ascii trimQuote_spec
             _ segs b E).
  - vm_compute in E. discriminate.
  - vm_compute in E. discriminate.
Defined.

Lemma parse_attachment_without_type_throws_witness :
  parse show_none toLowerCase_ascii trimQuote_spec
        (example_payload "hi" (Some [image_attachment; untyped_attachment])
                         (Some [ann])) =
    (Thrown TypeError,
     example_payload "hi" (Some [image_attachment; untyped_attachment])
                     (Some [ann])).
Proof.
  apply (parse_attachment_without_type_throws
           show_none toLowerCase_ascii trimQuote_spec _
           [image_attachment; untyped_attachment]).
  - reflexivity.
  - apply Exists_cons. right. apply Exists_cons. left.
    intros ct H. vm_compute in H. discriminate.
Defined.

Lemma parse_twice_mention_throws_witness :
  parse show_none toLowerCase_ascii trimQuote_spec
        {| content := Some (js "<@!123>"); attachments := None;
           mentions := None; fields := [(js "id", VStr (js "m1"))] |} =
    (Thrown TypeError,
     {| content := Some (js "<@!123>"); attachments := None;
        mentions := None; fields := [(js "id", VStr (js "m1"))] |}).
Proof.
  apply (parse_twice_mention_throws show_none toLowerCase_ascii trimQuote_spec
           (example_payload "<@!123>" None (Some [ann])) _
           ([ {[ js "type" := VStr (js "at"); js "id" := VStr (js "123");
                 js "username" := VStr (js "ann") ]} ],
            js "<at,id=123,username=ann>")
           (js "123")).
  - vm_compute. reflexivity.
  - vm_compute. reflexivity.
Defined.

Lemma parse_empty_iff_witness :
  exists segs b,
    (parse show_none toLowerCase_ascii trimQuote_spec
           (example_payload "" (Some []) None)).1 = Returned (segs, b) /\
    segs = [] /\ b = [].
Proof.
  destruct (parse show_none toLowerCase_ascii trimQuote_spec
              (example_payload "" (Some []) None)).1
    as [[segs b]| |] eqn:E.
  - exists segs, b. split; [reflexivity|].
    destruct (parse_empty_iff show_none toLowerCase_ascii trimQuote_spec
                _ segs b E) as [[_ Hs] [_ Hb]].
    assert (segs = []) as H by (apply Hs; split; reflexivity).
    split; [exact H | exact (Hb H)].
  - vm_compute in E. discriminate.
  - vm_compute in E. discriminate.
Defined.

(** ** The examples of the specification *)

Example parse_faceType :
  (parse show_none toLowerCase_ascii trimQuote_spec
         (example_payload "<faceType,faceId=7>" None None)).1 =
    Returned ([ {[ js "type" := VStr (js "face"); js "id" := VStr (js "7") ]} ],
              js "<face,id=7>").
Proof. vm_compute. reflexivity. Qed.

Example parse_face_shorthand :
  (parse show_none toLowerCase_ascii trimQuote_spec
         (example_payload "<f:42>" None None)).1 =
    Returned ([ {[ js "type" := VStr (js "face"); js "id" := VStr (js "42") ]} ],
              js "<face,id=42>").
Proof. vm_compute. reflexivity. Qed.

Example parse_quoted_span :
  (parse show_none toLowerCase_ascii trimQuote_spec
         (example_payload "say '<b>' <x,Key='v'>" None None)).1 =
    Returned ([ {[ js "type" := VStr (js "text"); js "text" := VStr (js "say ") ]};
                {[ js "type" := VStr (js "text"); js "text" := VStr (js "'<b>'") ]};
                {[ js "type" := VStr (js "text"); js "text" := VStr (js " ") ]};
                {[ js "type" := VStr (js "x"); js "key" := VStr (js "v") ]} ],
              js "say '<b>' <x,Key='v'>").
Proof. vm_compute. reflexivity. Qed.

Example parse_image_attachment :
  parse show_none toLowerCase_ascii trimQuote_spec
        (example_payload "" (Some [image_attachment]) (Some [])) =
    (Returned ([ {[ js "type" := VStr (js "image");
                    js "src" := VStr (js "https://cdn.x/a.png");
                    js "url" := VStr (js "https://cdn.x/a.png") ]} ],
               js "<image,src=cdn.x/a.png,url=cdn.x/a.png>"),
     {| content := Some []; attachments := None; mentions := None;
        fields := [(js "id", VStr (js "m1"))] |}).
Proof. vm_compute. reflexivity. Qed.

Example parse_unknown_mention :
  (parse show_none toLowerCase_ascii trimQuote_spec
         (example_payload "<@!7>" None (Some [ann]))).1 =
    Returned ([ {[ js "type" := VStr (js "at") ]} ], js "<at,>").
Proof. vm_compute. reflexivity. Qed.

(** ** Counterexamples *)

(** C4 as stated fails: an attachment with a field [type] of its own
    gives an element of that type, not of the type read off
    [content_type]. *)
Lemma attachment_type_overridden :
  (parse show_none toLowerCase_ascii trimQuote_spec
         (example_payload "" (Some [typed_attachment]) None)).1 =
    Returned ([ {[ js "type" := VStr (js "x");
                   js "src" := VStr (js "https://a");
                   js "url" := VStr (js "https://b") ]} ],
              js "<image,type=x,src=a,url=b>") /\
  obj_get typed_attachment (js "content_type") = VStr (js "image/png") /\
  ({[ js "type" := VStr (js "x");
      js "src" := VStr (js "https://a");
      js "url" := VStr (js "https://b") ]} : MessageElem Empty_set)
    !! js "type" <> Some (VStr (js "image")).
Proof.
  split; [vm_compute; reflexivity|]. split; [reflexivity|].
  vm_compute. discriminate.
Qed.

(** C5 as stated fails: the brief of a tag without attributes has a comma
    after the type, and scanning it again gives an attribute with the empty
    key. *)
Lemma brief_roundtrip_fails_without_attributes :
  (parse show_none toLowerCase_ascii trimQuote_spec
         (example_payload "<a>" None None)).1 =
    Returned ([ {[ js "type" := VStr (js "a") ]} ], js "<a,>") /\
  (parse show_none toLowerCase_ascii trimQuote_spec
         (example_payload "<a,>" None None)).1 =
    Returned ([ {[ js "type" := VStr (js "a"); [] := VStr [] ]} ], js "<a,>") /\
  [ ({[ js "type" := VStr (js "a") ]} : MessageElem Empty_set) ] <>
  [ {[ js "type" := VStr (js "a"); [] := VStr [] ]} ].
Proof.
  split; [vm_compute; reflexivity|]. split; [vm_compute; reflexivity|].
  intros H.
  apply (f_equal (fun l : list (MessageElem Empty_set) =>
                    match l with
                    | [m] => m !! []
                    | _ => None
                    end)) in H.
  vm_compute in H. discriminate.
Qed.


